(** * GoChat: the server bootstrap (server.js) and the offline worker

    A shallow embedding of the parts of the repository that carry behaviour:
    - the WebSocket authentication middleware [io.use] (server.js:158-173),
    - the HTTP middleware stack around the two rate limiters
      (server.js:67-109),
    - the fetch listener of the service worker (server.js:276-325),
    together with a model of the connection / channel / routing core that the
    specification describes and that the repository keeps in
    [./src/websocket/socketHandler], a module that is imported by server.js
    but is not part of the sources at hand. *)

From Stdlib Require Import ZArith String List Lia.
From stdpp Require Import base gmap sets list strings.

Local Open Scope string_scope.
Set Warnings "-clear-no-such-hyp".

(** ** JavaScript values, as far as the handshake reads them *)

Module Js.

(** The values a handshake field can hold.  [JObj] stands for any object or
    array (always truthy).  A number is kept as an integer: a fractional
    number is truthy like a non-zero one, NaN is falsy like [0]. *)
Inductive jsval : Type :=
| JUndefined
| JNull
| JBool (b : bool)
| JNum (n : Z)
| JStr (s : string)
| JObj.

#[global] Instance jsval_eq_dec : EqDecision jsval.
Proof. solve_decision. Defined.

(** ToBoolean. *)
Definition truthy (v : jsval) : bool :=
  match v with
  | JUndefined | JNull => false
  | JBool b => b
  | JNum n => negb (n =? 0)%Z
  | JStr s => negb (String.eqb s "")
  | JObj => true
  end.

(** [a || b]: the left operand when it is truthy, the right one otherwise. *)
Definition or (a b : jsval) : jsval := if truthy a then a else b.

(** [process.env.X || dflt] for an environment variable, which is a string
    when it is set. *)
Definition env_or (x : option string) (dflt : string) : string :=
  match x with
  | Some s => if String.eqb s "" then dflt else s
  | None => dflt
  end.

End Js.

(** ** The WebSocket authentication middleware (server.js:158-173) *)

Module WsAuth.
Import Js.

(** [socket.handshake]: the fields a client can fill in.  The middleware
    reads [auth.token] and [query.token]; [headers.authorization] is part of
    every handshake but is not read. *)
Record Handshake : Type := mkHandshake {
  auth_token : jsval;
  query_token : jsval;
  headers_authorization : jsval
}.

Record Socket : Type := mkSocket {
  handshake : Handshake;
  userId : jsval;
  username : jsval
}.

(** The payload [jwt.verify] returns; a claim that is absent reads as
    [JUndefined]. *)
Record Decoded : Type := mkDecoded {
  decoded_userId : jsval;
  decoded_username : jsval
}.

(** What the middleware hands to [next]. *)
Inductive Next : Type :=
| NextOk
| NextError (message : string).

(** What socket.io makes of a handshake: the connection is refused with the
    middleware's error, or the socket is connected. *)
Inductive Outcome : Type :=
| Refused (message : string)
| Connected (socket : Socket).

Section Middleware.

(** [jwt.verify token secret] of the jsonwebtoken package: the decoded
    payload, or [None] when it throws (token not a string, malformed,
    expired, bad signature). *)
Variable jwt_verify : jsval -> string -> option Decoded.

(** [process.env.JWT_SECRET]. *)
Variable env_JWT_SECRET : option string.

Definition secret : string := env_or env_JWT_SECRET "gochat-secret-key".

(** server.js:159 *)
Definition token_of (h : Handshake) : jsval :=
  Js.or (auth_token h) (query_token h).

(** server.js:158-173.  The socket after the middleware has run, and the
    argument given to [next]. *)
Definition ioUse (socket : Socket) : Socket * Next :=
  let token := token_of (handshake socket) in
  if negb (truthy token) then
    (socket, NextError "Autenticação necessária")
  else
    match jwt_verify token secret with
    | Some decoded =>
        ({| handshake := handshake socket;
            userId := decoded_userId decoded;
            username := decoded_username decoded |}, NextOk)
    | None => (socket, NextError "Token inválido")
    end.

(** The state the connection listeners work on, and the listener that
    [socketHandler(io)] installs (server.js:176); both live outside the
    sources at hand. *)
Variable Core : Type.
Variable onConnection : Socket -> Core -> Core.

(** A handshake as socket.io runs it: the middleware first, and the
    connection listener only when the middleware called [next()] without an
    error. *)
Definition connect (socket : Socket) (core : Core) : Outcome * Core :=
  match ioUse socket with
  | (socket', NextOk) => (Connected socket', onConnection socket' core)
  | (_, NextError message) => (Refused message, core)
  end.

(** The credential of a handshake is unusable: none is supplied, or
    verification throws. *)
Definition credential_rejected (h : Handshake) : Prop :=
  truthy (token_of h) = false \/ jwt_verify (token_of h) secret = None.

Definition is_auth_error (message : string) : Prop :=
  message = "Autenticação necessária" \/ message = "Token inválido".

End Middleware.

End WsAuth.

(** ** The HTTP middleware stack up to the rate limiters (server.js:67-109) *)

Module Http.

(** An incoming request, as far as the stack looks at it: [req.method],
    [req.path] and [req.ip]. *)
Record Request : Type := mkRequest {
  method : string;
  path : string;
  ip : string
}.

(** The [message] option of a limiter: the body sent with a refusal. *)
Record Message : Type := mkMessage {
  success : bool;
  message : string
}.

(** The options handed to [rateLimit] (the header switches have no bearing
    on admission and are left out). *)
Record Options : Type := mkOptions {
  windowMs : Z;
  max : nat;
  body : Message
}.

(** server.js:87-96 *)
Definition limiter : Options :=
  {| windowMs := 15 * 60 * 1000;
     max := 100;
     body := {| success := false;
                message := "Muitas requisições. Tente novamente mais tarde." |} |}.

(** server.js:98-105 *)
Definition authLimiter : Options :=
  {| windowMs := 15 * 60 * 1000;
     max := 5;
     body := {| success := false;
                message := "Muitas tentativas de login. Tente novamente em 15 minutos." |} |}.

(** *** express-rate-limit

    The package is a dependency, not part of the repository.  Its memory
    store keeps, per key, the number of hits in the running window and the
    time at which that window ends; the key is [req.ip].  The sources pin no
    version of the package: the store below opens a window per key at the
    key's first hit, as the store of version 7 does (version 6 ends the
    windows of all keys together, on a timer), and it takes the address as
    the key as it stands (version 8 derives one key for the IPv6 addresses
    of a /56 network).  The properties below are stated from the hits a
    store has on record for a request's key. *)
Record Client : Type := mkClient {
  totalHits : nat;
  resetTime : Z
}.

Abbreviation Store := (gmap string Client).

(** [store.increment(key)] at time [now]: an absent or expired entry starts
    a new window; the hit is counted. *)
Definition increment (o : Options) (now : Z) (key : string) (s : Store)
  : nat * Store :=
  let fresh := {| totalHits := 0; resetTime := now + windowMs o |}%Z in
  let client :=
    match s !! key with
    | Some c => if (resetTime c <=? now)%Z then fresh else c
    | None => fresh
    end in
  let hits := S (totalHits client) in
  (hits, <[key := {| totalHits := hits; resetTime := resetTime client |}]> s).

(** What a middleware does with a request: pass it on, or end it with a
    response. *)
Inductive Verdict : Type :=
| Pass
| Respond (status : Z) (payload : option Message).

(** The middleware [rateLimit(o)]: count the hit, and answer 429 with the
    configured message once the count is above [max]. *)
Definition rateLimit (o : Options) (now : Z) (req : Request) (s : Store)
  : Verdict * Store :=
  let '(hits, s') := increment o now (ip req) s in
  if Nat.ltb (max o) hits then (Respond 429 (Some (body o)), s') else (Pass, s').

(** The hits of [key] that count at time [now]. *)
Definition hits_in_window (now : Z) (key : string) (s : Store) : nat :=
  match s !! key with
  | Some c => if (resetTime c <=? now)%Z then 0 else totalHits c
  | None => 0
  end.

(** *** The stack *)

(** ASCII lower case, for express's case-insensitive route matching. *)
Definition lower_ascii (a : Ascii.ascii) : Ascii.ascii :=
  let n := Ascii.nat_of_ascii a in
  if Nat.leb 65 n && Nat.leb n 90 then Ascii.ascii_of_nat (n + 32) else a.

Fixpoint lower (s : string) : string :=
  match s with
  | EmptyString => EmptyString
  | String a s' => String (lower_ascii a) (lower s')
  end.

(** [app.use(mount, ...)]: the middleware runs for [mount] itself and for
    every path below it. *)
Definition mounted (mount p : string) : bool :=
  let m := lower mount in
  let q := lower p in
  String.eqb q m || String.prefix (m ++ "/") q.

(** The two limiter instances of the process. *)
Inductive Which : Type := Global | Auth.

Record Limits : Type := mkLimits {
  global_store : Store;
  auth_store : Store
}.

Definition options_of (w : Which) : Options :=
  match w with Global => limiter | Auth => authLimiter end.

Definition store_of (w : Which) (l : Limits) : Store :=
  match w with Global => global_store l | Auth => auth_store l end.

Definition set_store (w : Which) (s : Store) (l : Limits) : Limits :=
  match w with
  | Global => {| global_store := s; auth_store := auth_store l |}
  | Auth => {| global_store := global_store l; auth_store := s |}
  end.

(** server.js:107-109, in order: where each limiter is mounted ([None] is
    every path).  [authLimiter] is one instance mounted twice. *)
Definition limiter_stack : list (option string * Which) :=
  [ (None, Global);
    (Some "/api/auth/login", Auth);
    (Some "/api/auth/register", Auth) ].

Definition applies (mount : option string) (req : Request) : bool :=
  match mount with
  | None => true
  | Some m => mounted m (path req)
  end.

(** Run a request down a list of mounted limiters; the first refusal ends
    it. *)
Fixpoint run_stack (stack : list (option string * Which)) (now : Z)
    (req : Request) (l : Limits) : Verdict * Limits :=
  match stack with
  | [] => (Pass, l)
  | (mount, w) :: rest =>
      if applies mount req then
        match rateLimit (options_of w) now req (store_of w l) with
        | (Pass, s') => run_stack rest now req (set_store w s' l)
        | (refusal, s') => (refusal, set_store w s' l)
        end
      else run_stack rest now req l
  end.

(** The [cors] package with its default [preflightContinue: false]
    (server.js:79-84): a request with method OPTIONS is answered by the
    middleware itself (status 204, no body) and is not passed on. *)
Definition cors (req : Request) : Verdict :=
  if String.eqb (method req) "OPTIONS" then Respond 204 None else Pass.

(** server.js:67-109: [helmet] only sets response headers and passes every
    request on; then [cors]; then the limiters.  [Pass] means the request
    goes on to the body parsers and the routes. *)
Definition app (now : Z) (req : Request) (l : Limits) : Verdict * Limits :=
  match cors req with
  | Pass => run_stack limiter_stack now req l
  | response => (response, l)
  end.

Definition no_limits : Limits := {| global_store := ∅; auth_store := ∅ |}.

(** A run of requests, each with its arrival time; the verdicts in order. *)
Fixpoint serve (reqs : list (Z * Request)) (l : Limits)
  : list Verdict * Limits :=
  match reqs with
  | [] => ([], l)
  | (now, req) :: rest =>
      let '(v, l') := app now req l in
      let '(vs, l'') := serve rest l' in
      (v :: vs, l'')
  end.

End Http.

(** ** The fetch listener of the service worker (server.js:276-325) *)

Module Worker.

(** The fields of a [Request] the listener reads. *)
Record Request : Type := mkRequest {
  method : string;
  url : string;
  mode : string
}.

Record Response : Type := mkResponse {
  status : Z;
  statusText : string;
  body : string
}.

#[global] Instance Response_eq_dec : EqDecision Response.
Proof. solve_decision. Defined.

(** A cache maps a request URL to the stored response; the cache storage
    lists the named caches in creation order. *)
Abbreviation Cache := (gmap string Response).
Definition CacheStorage : Type := list (string * Cache).

Definition CACHE_NAME : string := "gochat-v1".

(** [caches.match(key)]: the first stored response over the caches, in
    creation order; [None] is [undefined]. *)
Fixpoint caches_match (key : string) (cs : CacheStorage) : option Response :=
  match cs with
  | [] => None
  | (_, c) :: rest =>
      match c !! key with
      | Some r => Some r
      | None => caches_match key rest
      end
  end.

(** [caches.open(name).then(cache => cache.put(key, r))]: the cache is
    created at the end of the storage when it does not exist. *)
Fixpoint caches_put (name key : string) (r : Response) (cs : CacheStorage)
  : CacheStorage :=
  match cs with
  | [] => [(name, {[ key := r ]})]
  | (n, c) :: rest =>
      if String.eqb n name then (n, <[key := r]> c) :: rest
      else (n, c) :: caches_put name key r rest
  end.

(** What the listener leaves the browser with: nothing (the request takes
    its default route), or the settled value given to [respondWith]
    ([None] is [undefined]). *)
Inductive Handled : Type :=
| PassThrough
| RespondWith (r : option Response).

Definition offline : Response :=
  {| status := 503; statusText := "Service Unavailable"; body := "Offline" |}.

Section Listener.

(** [new URL(u).pathname], and the absolute URL a path resolves to from
    the worker's location: both belong to the platform. *)
Variable pathname : string -> string.
Variable resolve : string -> string.

(** [fetch(request)]: the response, or [None] when the promise rejects. *)
Variable fetch : Request -> option Response.

(** server.js:281-288: the requests the listener leaves alone. *)
Definition skipped (request : Request) : bool :=
  negb (String.eqb (method request) "GET")
  || String.prefix "/api/" (pathname (url request))
  || String.prefix "/socket.io/" (pathname (url request)).

(** server.js:276-325: the listener, with the cache storage before and
    after its promises have settled.  The storage afterwards is the one of
    a [cache.put] that is carried out; the platform refuses some responses
    (a partial response of status 206, for one), and the copy is then
    missing. *)
Definition onFetch (request : Request) (cs : CacheStorage)
  : Handled * CacheStorage :=
  if negb (String.eqb (method request) "GET") then (PassThrough, cs)
  else if String.prefix "/api/" (pathname (url request))
          || String.prefix "/socket.io/" (pathname (url request))
  then (PassThrough, cs)
  else
    match fetch request with
    | Some response =>
        (RespondWith (Some response),
         caches_put CACHE_NAME (url request) response cs)
    | None =>
        match caches_match (url request) cs with
        | Some cachedResponse => (RespondWith (Some cachedResponse), cs)
        | None =>
            if String.eqb (mode request) "navigate"
            then (RespondWith (caches_match (resolve "/index.html") cs), cs)
            else (RespondWith (Some offline), cs)
        end
    end.

End Listener.

End Worker.

(** ** The connection / channel / routing core of the specification

    server.js hands every authenticated socket to
    [./src/websocket/socketHandler], which is not among the sources.  The
    definitions of this module follow sections 3 and 4 of the specification
    instead. *)

Module Core.

Abbreviation ConnId := nat.
Abbreviation ChannelId := string.

(** Modelled from the spec: the identity record of section 3 (the socket
    handler that would hold it is missing). *)
Record Identity : Type := mkIdentity {
  userId : string;
  username : string
}.

(** Modelled from the spec: the connection record of section 3, kept by the
    missing socket handler.  The transport handle of a connection is its
    slot in [wire] below. *)
Record Connection : Type := mkConnection {
  identity : Identity;
  joinedChannels : gset ChannelId;
  lastActivityAt : Z
}.

(** Modelled from the spec: the error taxonomy of sections 4 and 7. *)
Inductive Error : Type :=
| AuthenticationError
| NotAuthenticatedError
| NotMemberError
| RateLimitedError
| DeliveryError.

(** Modelled from the spec: the outbound event shape of section 6. *)
Record Event : Type := mkEvent {
  channelId : ChannelId;
  senderId : ConnId;
  payload : string;
  timestamp : Z
}.

(** Modelled from the spec: what a connection's transport is sent, an event
    of a channel or a structured rejection (section 7). *)
Inductive Frame : Type :=
| Delivered (e : Event)
| Rejection (err : Error).

(** Modelled from the spec: the result of an operation of the missing
    handler, a failure of the taxonomy or a set of connection ids (the
    members after a join or leave, the recipients of a publish). *)
Inductive Result : Type :=
| Ok (ids : gset ConnId)
| Err (e : Error).

(** Modelled from the spec: the configuration inputs of sections 4.4 and
    4.5. *)
Record Config : Type := mkConfig {
  maxEvents : nat;
  windowMs : Z;
  excludeSender : bool
}.

(** Modelled from the spec: the state owned by the missing handler, that is
    the connection table, the channel membership, the per-connection log of
    the rate guard (times of the events let through) and, per connection,
    the frames written to its transport, oldest first. *)
Record State : Type := mkState {
  connections : gmap ConnId Connection;
  channels : gmap ChannelId (gset ConnId);
  nextId : ConnId;
  guard : gmap ConnId (list Z);
  wire : gmap ConnId (list Frame)
}.

(** Modelled from the spec: the state of the missing handler at process
    start, with no connection and no channel. *)
Definition init : State :=
  {| connections := ∅; channels := ∅; nextId := 0; guard := ∅; wire := ∅ |}.

(** Modelled from the spec: [membersOf] of section 4.3 (missing handler);
    a channel without a record has no members. *)
Definition membersOf (ch : ChannelId) (st : State) : gset ConnId :=
  default ∅ (channels st !! ch).

(** Modelled from the spec: the frames written so far to the transport
    handle of a connection (section 3; the handler is missing). *)
Definition sent_to (id : ConnId) (st : State) : list Frame :=
  default [] (wire st !! id).

(** Modelled from the spec: [register] of section 4.2 (missing handler);
    always succeeds with a new connection id. *)
Definition register (who : Identity) (now : Z) (st : State) : ConnId * State :=
  let id := nextId st in
  (id,
   {| connections :=
        <[id := {| identity := who; joinedChannels := ∅; lastActivityAt := now |}]>
          (connections st);
      channels := channels st;
      nextId := S id;
      guard := guard st;
      wire := wire st |}).

(** Modelled from the spec: a member set without [id], where a set left
    empty is no record at all (section 4.3, missing handler). *)
Definition strip (id : ConnId) (o : option (gset ConnId)) : option (gset ConnId) :=
  match o with
  | Some m => if decide (m ∖ {[id]} = ∅) then None else Some (m ∖ {[id]})
  | None => None
  end.

(** Modelled from the spec: the channel side of [leave] (section 4.3,
    missing handler): the membership is removed and the record deleted when
    it becomes empty. *)
Definition evict (id : ConnId) (ch : ChannelId)
    (chans : gmap ChannelId (gset ConnId)) : gmap ChannelId (gset ConnId) :=
  partial_alter (strip id) ch chans.

(** Modelled from the spec: [unregister] of section 4.2 (missing handler):
    the connection is removed and evicted from every channel it had joined;
    nothing happens when it is not registered. *)
Definition unregister (id : ConnId) (st : State) : State :=
  match connections st !! id with
  | None => st
  | Some c =>
      {| connections := delete id (connections st);
         channels := foldr (evict id) (channels st) (elements (joinedChannels c));
         nextId := nextId st;
         guard := delete id (guard st);
         wire := wire st |}
  end.

(** Modelled from the spec: [touch] of section 4.2 (missing handler). *)
Definition touch (id : ConnId) (now : Z) (st : State) : State :=
  {| connections :=
       alter (fun c => {| identity := identity c;
                          joinedChannels := joinedChannels c;
                          lastActivityAt := now |}) id (connections st);
     channels := channels st;
     nextId := nextId st;
     guard := guard st;
     wire := wire st |}.

(** Modelled from the spec: [join] of section 4.3 (missing handler). *)
Definition join (id : ConnId) (ch : ChannelId) (st : State) : Result * State :=
  match connections st !! id with
  | None => (Err NotAuthenticatedError, st)
  | Some c =>
      let members := {[id]} ∪ membersOf ch st in
      (Ok members,
       {| connections :=
            <[id := {| identity := identity c;
                       joinedChannels := {[ch]} ∪ joinedChannels c;
                       lastActivityAt := lastActivityAt c |}]> (connections st);
          channels := <[ch := members]> (channels st);
          nextId := nextId st;
          guard := guard st;
          wire := wire st |})
  end.

(** Modelled from the spec: [leave] of section 4.3 (missing handler), with
    the [NotMemberError] of section 7 for a channel never joined. *)
Definition leave (id : ConnId) (ch : ChannelId) (st : State) : Result * State :=
  if decide (id ∈ membersOf ch st) then
    (Ok (membersOf ch st ∖ {[id]}),
     {| connections :=
          alter (fun c => {| identity := identity c;
                             joinedChannels := joinedChannels c ∖ {[ch]};
                             lastActivityAt := lastActivityAt c |}) id (connections st);
        channels := evict id ch (channels st);
        nextId := nextId st;
        guard := guard st;
        wire := wire st |})
  else (Err NotMemberError, st).

(** Modelled from the spec: one frame written to the transport of [to]
    (section 4.4, missing handler). *)
Definition send (f : Frame) (to : ConnId) (w : gmap ConnId (list Frame))
  : gmap ConnId (list Frame) :=
  <[to := (default [] (w !! to) ++ [f])%list]> w.

(** Modelled from the spec: the recipients of a publish (section 4.4,
    missing handler): the members, without the sender when self-exclusion is
    on. *)
Definition recipients (cfg : Config) (sender : ConnId) (ch : ChannelId)
    (st : State) : gset ConnId :=
  if excludeSender cfg then membersOf ch st ∖ {[sender]} else membersOf ch st.

(** Modelled from the spec: [publish] of section 4.4 (missing handler).
    Every write to a transport succeeds here; the per-recipient
    [DeliveryError] of the specification is not modelled. *)
Definition publish (cfg : Config) (now : Z) (sender : ConnId) (ch : ChannelId)
    (body : string) (st : State) : Result * State :=
  if decide (sender ∈ membersOf ch st) then
    let e := {| channelId := ch; senderId := sender; payload := body;
                timestamp := now |} in
    let to := recipients cfg sender ch st in
    (Ok to,
     {| connections := connections st;
        channels := channels st;
        nextId := nextId st;
        guard := guard st;
        wire := foldr (send (Delivered e)) (wire st) (elements to) |})
  else (Err NotMemberError, st).

(** Modelled from the spec: the times of a log that are still inside the
    sliding window at [now] (section 4.5, missing handler). *)
Definition in_window (cfg : Config) (now : Z) (log : list Z) : list Z :=
  List.filter (fun t => (now - t <? windowMs cfg)%Z) log.

(** Modelled from the spec: [admit] of section 4.5 (missing handler): a
    sliding window over the times of the events let through; [true] is
    allow, [false] is reject. *)
Definition guard_admit (cfg : Config) (now : Z) (id : ConnId) (st : State)
  : bool * State :=
  let recent := in_window cfg now (default [] (guard st !! id)) in
  let allow := Nat.ltb (length recent) (maxEvents cfg) in
  (allow,
   {| connections := connections st;
      channels := channels st;
      nextId := nextId st;
      guard := <[id := if allow then (recent ++ [now])%list else recent]> (guard st);
      wire := wire st |}).

(** Modelled from the spec: a failure is reported to the originating
    connection only (sections 4.5 and 7). *)
Definition reply (id : ConnId) (r : Result * State) : Result * State :=
  match r with
  | (Err e, st) =>
      (Err e,
       {| connections := connections st;
          channels := channels st;
          nextId := nextId st;
          guard := guard st;
          wire := send (Rejection e) id (wire st) |})
  | ok => ok
  end.

(** Modelled from the spec: the inbound event shape of section 6. *)
Inductive Inbound : Type :=
| Join (ch : ChannelId)
| Leave (ch : ChannelId)
| Publish (ch : ChannelId) (body : string).

(** Modelled from the spec: the dispatch of one inbound event of connection
    [id] (sections 2, 4.4 and 4.5, missing handler): a publish goes through
    the rate guard first and is skipped when the guard rejects. *)
Definition handle (cfg : Config) (now : Z) (id : ConnId) (ev : Inbound)
    (st : State) : Result * State :=
  let st1 := touch id now st in
  match ev with
  | Join ch => reply id (join id ch st1)
  | Leave ch => reply id (leave id ch st1)
  | Publish ch body =>
      let '(allow, st2) := guard_admit cfg now id st1 in
      if allow then reply id (publish cfg now id ch body st2)
      else reply id (Err RateLimitedError, st2)
  end.

(** Modelled from the spec: what can happen to the core of the missing
    handler (section 2): a connection is registered after its handshake, a
    connection closes, a connection sends an inbound event. *)
Inductive Op : Type :=
| Connect (who : Identity)
| Disconnect (id : ConnId)
| Receive (id : ConnId) (ev : Inbound).

(** Modelled from the spec: one such happening at a given time, and a run
    of them from a state. *)
Definition step (cfg : Config) (st : State) (op : Z * Op) : State :=
  match op with
  | (now, Connect who) => snd (register who now st)
  | (_, Disconnect id) => unregister id st
  | (now, Receive id ev) => snd (handle cfg now id ev st)
  end.

Definition run (cfg : Config) (ops : list (Z * Op)) (st : State) : State :=
  foldl (step cfg) st ops.

(** The connection has joined the channel, by its own record. *)
Definition has_joined (id : ConnId) (ch : ChannelId) (st : State) : Prop :=
  exists c, connections st !! id = Some c /\ ch ∈ joinedChannels c.

(** The payloads of the events of one sender on one channel among frames. *)
Definition heard (sender : ConnId) (ch : ChannelId) (fs : list Frame)
  : list string :=
  omap (fun f =>
          match f with
          | Delivered e =>
              if decide (senderId e = sender /\ channelId e = ch)
              then Some (payload e) else None
          | Rejection _ => None
          end) fs.

(** The payloads one sender publishes on one channel in a run, in the order
    of the calls. *)
Definition said (sender : ConnId) (ch : ChannelId) (ops : list (Z * Op))
  : list string :=
  omap (fun op =>
          match op with
          | (_, Receive id (Publish c body)) =>
              if decide (id = sender /\ c = ch) then Some body else None
          | _ => None
          end) ops.

End Core.

(** ** Notions used to state the properties of the core *)

Section CoreNotions.
Import Core.

Variable cfg : Config.

(** The channels of a connection by its own record; none when it is not
    registered. *)
Definition joined_of (id : ConnId) (st : State) : gset ChannelId :=
  default ∅ (joinedChannels <$> connections st !! id).

(** Both directions of membership agree. *)
Definition consistent (st : State) : Prop :=
  forall id ch, has_joined id ch st <-> id ∈ membersOf ch st.

(** No channel record has an empty member set. *)
Definition no_empty_channel (st : State) : Prop :=
  forall ch m, channels st !! ch = Some m -> m ≠ ∅.

(** Connection ids are handed out in increasing order. *)
Definition ids_below_next (st : State) : Prop :=
  forall id c, connections st !! id = Some c -> id < nextId st.

Definition well_formed (st : State) : Prop :=
  consistent st /\ no_empty_channel st /\ ids_below_next st.



(** What one step can write to a transport: nothing, a rejection, or the
    event of the publish it handles. *)
Inductive written (now : Z) (op : Op) : list Frame -> Prop :=
| written_nothing : written now op []
| written_rejection e : written now op [Rejection e]
| written_event id ch body :
    op = Receive id (Publish ch body) ->
    written now op [Delivered {| channelId := ch; senderId := id;
                                 payload := body; timestamp := now |}].

(** One sender publishing a list of payloads on one channel. *)
Definition publish_all (sender : ConnId) (ch : ChannelId)
    (evs : list (Z * string)) (st : State) : State :=
  foldl (fun s ev => snd (publish cfg (fst ev) sender ch (snd ev) s)) st evs.

End CoreNotions.

(** ** The HTTP server in front of the Express application (server.js:54-64) *)

Module Server.

(** Who answers a request that arrives at the HTTP server: the socket.io
    engine, or the Express application with the verdict of its stack. *)
Inductive Handled : Type :=
| ByEngine
| ByExpress (v : Http.Verdict).

(** [socketIo(server, ...)] is given no [path] option, so the engine serves
    the URLs that start with this prefix. *)
Definition engine_prefix : string := "/socket.io/".

(** server.js:54-64: [http.createServer(app)] makes the Express application
    the request listener, and [socketIo(server, ...)] then puts the engine
    in front of it: a request whose URL starts with the engine's prefix is
    handled by the engine and never handed to the application; every other
    request is handed to the application.  The URL starts with the prefix
    exactly when its path does. *)
Definition handle (now : Z) (req : Http.Request) (l : Http.Limits)
  : Handled * Http.Limits :=
  if String.prefix engine_prefix (Http.path req) then (ByEngine, l)
  else (ByExpress (fst (Http.app now req l)), snd (Http.app now req l)).

(** A run of requests at the server, each with its arrival time. *)
Fixpoint serve (reqs : list (Z * Http.Request)) (l : Http.Limits)
  : list Handled * Http.Limits :=
  match reqs with
  | [] => ([], l)
  | (now, req) :: rest =>
      let '(h, l') := handle now req l in
      let '(hs, l'') := serve rest l' in
      (h :: hs, l'')
  end.

End Server.

(** ** Notions used to state the properties of the limiters *)

(** The path is under one of the two routes of the login limiter. *)
Definition auth_path (req : Http.Request) : bool :=
  Http.mounted "/api/auth/login" (Http.path req) || Http.mounted "/api/auth/register" (Http.path req).

(** ** The life cycle of the service worker (server.js:232-273) *)

Module Lifecycle.
Import Worker.

(** server.js:233-239 *)
Definition STATIC_ASSETS : list string :=
  [ "/"; "/index.html"; "/manifest.json";
    "/icons/icon-192x192.png"; "/icons/icon-512x512.png" ].

(** [caches.keys()]: the names of the caches, in creation order. *)
Definition caches_keys (cs : CacheStorage) : list string := map fst cs.

(** [caches.delete(name)]. *)
Definition caches_delete (name : string) (cs : CacheStorage) : CacheStorage :=
  List.filter (fun p => negb (String.eqb (fst p) name)) cs.

(** [caches.open(name)]: the cache is created, empty, when there is none of
    that name. *)
Definition caches_open (name : string) (cs : CacheStorage) : CacheStorage :=
  if existsb (fun p => String.eqb (fst p) name) cs then cs
  else (cs ++ [(name, ∅)])%list.

(** server.js:256-273: the activate listener deletes every cache whose name
    is not [CACHE_NAME], one [caches.delete] per name.  (It then claims the
    clients, which leaves the caches alone.) *)
Definition onActivate (cs : CacheStorage) : CacheStorage :=
  foldl (fun acc name => caches_delete name acc) cs
    (List.filter (fun name => negb (String.eqb name CACHE_NAME)) (caches_keys cs)).

(** The storage holds no cache but those named [CACHE_NAME]. *)
Definition only_current (cs : CacheStorage) : Prop :=
  Forall (fun p => fst p = CACHE_NAME) cs.

Section Install.

Variable resolve : string -> string.
Variable fetch : Request -> option Response.

(** The request [cache.addAll] makes for an asset path. *)
Definition asset_request (asset : string) : Request :=
  {| method := "GET"; url := resolve asset; mode := "cors" |}.

(** The responses [cache.addAll] accepts: an ok status that is not 206. *)
Definition addable (r : Response) : bool :=
  (200 <=? status r)%Z && (status r <=? 299)%Z && negb (status r =? 206)%Z.

(** The fetches of [cache.addAll]: every asset must come back with a
    response it accepts, or the whole call rejects ([None]). *)
Fixpoint fetch_assets (assets : list string) : option (list (string * Response)) :=
  match assets with
  | [] => Some []
  | asset :: rest =>
      match fetch (asset_request asset) with
      | Some r =>
          if addable r
          then option_map (cons (resolve asset, r)) (fetch_assets rest)
          else None
      | None => None
      end
  end.

(** [caches.open(name).then(cache => cache.addAll(assets))] on a storage
    where the cache is open: all responses are stored, or none. *)
Definition cache_addAll (name : string) (assets : list string)
    (cs : CacheStorage) : option CacheStorage :=
  option_map
    (foldl (fun acc e => caches_put name (fst e) (snd e) acc) cs)
    (fetch_assets assets).

(** server.js:242-253: the install listener.  The boolean tells whether the
    promise given to [waitUntil] fulfils, which is when [skipWaiting] is
    called. *)
Definition onInstall (cs : CacheStorage) : bool * CacheStorage :=
  let opened := caches_open CACHE_NAME cs in
  match cache_addAll CACHE_NAME STATIC_ASSETS opened with
  | Some stored => (true, stored)
  | None => (false, opened)
  end.

End Install.

End Lifecycle.

(** ** The notification click listener (server.js:352-384) *)

Module Notify.
Import Js.

(** The fields of [event.notification.data] the listener reads. *)
Record NotificationData : Type := mkData {
  chatId : jsval;
  liveId : jsval;
  userId : jsval
}.

(** A window client: its URL, and whether it has a [focus] method. *)
Record WindowClient : Type := mkClient {
  client_url : string;
  has_focus : bool
}.

(** What the listener asks of the browser after closing the notification. *)
Inductive Action : Type :=
| Focus (client : WindowClient)
| OpenWindow (url : string)
| NoAction.

(** [notificationData?.f]: [undefined] when there is no data. *)
Definition field (data : option NotificationData)
    (f : NotificationData -> jsval) : jsval :=
  match data with
  | Some d => f d
  | None => JUndefined
  end.

Section Click.

(** How a value that is not a string prints inside a template literal or a
    string concatenation. *)
Variable show : jsval -> string.

Definition interpolate (v : jsval) : string :=
  match v with
  | JStr s => s
  | _ => show v
  end.

(** server.js:357-366 *)
Definition target (data : option NotificationData) : string :=
  if truthy (field data chatId) then "/chat/" ++ interpolate (field data chatId)
  else if truthy (field data liveId) then "/live/" ++ interpolate (field data liveId)
  else if truthy (field data userId) then "/profile/" ++ interpolate (field data userId)
  else "/".

(** server.js:368-383: the first client at exactly the target URL is
    focused; without one a window is opened, when the browser can. *)
Definition onNotificationClick (data : option NotificationData)
    (clients : list WindowClient) (canOpen : bool) : Action :=
  let url := target data in
  match List.find (fun c => String.eqb (client_url c) url && has_focus c) clients with
  | Some c => Focus c
  | None => if canOpen then OpenWindow url else NoAction
  end.

End Click.

End Notify.

(** ** Sample data *)

(** A verifier for examples: one token is good. *)
Definition sample_verify (token : Js.jsval) (key : string)
  : option WsAuth.Decoded :=
  if decide (token = Js.JStr "good-token")
  then Some (WsAuth.mkDecoded (Js.JStr "u1") (Js.JStr "ana"))
  else None.

Definition sample_socket (a q h : Js.jsval) : WsAuth.Socket :=
  WsAuth.mkSocket (WsAuth.mkHandshake a q h) Js.JUndefined Js.JUndefined.

Definition sample_page : Worker.Request :=
  {| Worker.method := "GET";
     Worker.url := "https://gochat.example/index.html";
     Worker.mode := "navigate" |}.

Definition stale_page : Worker.Response :=
  {| Worker.status := 200; Worker.statusText := "OK"; Worker.body := "old" |}.

Definition fresh_page : Worker.Response :=
  {| Worker.status := 200; Worker.statusText := "OK"; Worker.body := "new" |}.

Definition sample_caches : Worker.CacheStorage :=
  [(Worker.CACHE_NAME, {[ "https://gochat.example/index.html" := stale_page ]})].

Definition get_home (from : string) : Http.Request :=
  {| Http.method := "GET"; Http.path := "/health"; Http.ip := from |}.

Definition post_login (from : string) : Http.Request :=
  {| Http.method := "POST"; Http.path := "/api/auth/login"; Http.ip := from |}.

Definition post_register (from : string) : Http.Request :=
  {| Http.method := "POST"; Http.path := "/api/auth/register"; Http.ip := from |}.


(** The limits after a hundred requests of one address at time [0]. *)
Definition after_hundred : Http.Limits :=
  snd (Http.serve (replicate 100 (0%Z, get_home "10.0.0.7")) Http.no_limits).

Definition sample_show (v : Js.jsval) : string :=
  match v with
  | Js.JNum 7 => "7"
  | _ => "?"
  end.

Definition open_chat : Notify.WindowClient :=
  {| Notify.client_url := "https://gochat.example/chat/42";
     Notify.has_focus := true |}.

Definition sample_cfg : Core.Config :=
  {| Core.maxEvents := 3; Core.windowMs := 1000; Core.excludeSender := true |}.

Definition ana : Core.Identity := Core.mkIdentity "u1" "ana".
Definition bia : Core.Identity := Core.mkIdentity "u2" "bia".
Definition caio : Core.Identity := Core.mkIdentity "u3" "caio".

(** Connections [0], [1] and [2] join channel [X]; [0] is also alone in
    channel [Y]. *)
Definition sample_ops : list (Z * Core.Op) :=
  [ (0%Z, Core.Connect ana); (0%Z, Core.Connect bia); (0%Z, Core.Connect caio);
    (1%Z, Core.Receive 0 (Core.Join "X"));
    (2%Z, Core.Receive 1 (Core.Join "X"));
    (3%Z, Core.Receive 2 (Core.Join "X"));
    (4%Z, Core.Receive 0 (Core.Join "Y")) ].

Abbreviation three_in_room := (Core.run sample_cfg sample_ops Core.init).

(** * Properties *)

(** ** The WebSocket handshake *)

Section HandshakeFacts.
Import Js WsAuth.

Variable jwt_verify : jsval -> string -> option Decoded.
Variable env_JWT_SECRET : option string.

Lemma ioUse_no_token socket :
  truthy (token_of (handshake socket)) = false ->
  ioUse jwt_verify env_JWT_SECRET socket
  = (socket, NextError "Autenticação necessária").
Proof. intros H. unfold ioUse. now rewrite H. Qed.

Lemma ioUse_verify_throws socket :
  truthy (token_of (handshake socket)) = true ->
  jwt_verify (token_of (handshake socket)) (secret env_JWT_SECRET) = None ->
  ioUse jwt_verify env_JWT_SECRET socket = (socket, NextError "Token inválido").
Proof. intros Ht Hv. unfold ioUse. now rewrite Ht, Hv. Qed.

Lemma ioUse_verified socket d :
  truthy (token_of (handshake socket)) = true ->
  jwt_verify (token_of (handshake socket)) (secret env_JWT_SECRET) = Some d ->
  ioUse jwt_verify env_JWT_SECRET socket
  = ({| handshake := handshake socket;
        userId := decoded_userId d;
        username := decoded_username d |}, NextOk).
Proof. intros Ht Hv. unfold ioUse. now rewrite Ht, Hv. Qed.

(** The middleware calls [next()] without an error only for a token that
    is present and that [jwt.verify] accepts. *)
Lemma ioUse_ok_inv socket socket' :
  ioUse jwt_verify env_JWT_SECRET socket = (socket', NextOk) ->
  exists d,
    truthy (token_of (handshake socket)) = true /\
    jwt_verify (token_of (handshake socket)) (secret env_JWT_SECRET) = Some d.
Proof.
  unfold ioUse.
  destruct (truthy (token_of (handshake socket))); simpl; [|discriminate].
  destruct (jwt_verify _ _) as [d|]; [|discriminate].
  intros _. now exists d.
Qed.

(** The header [Authorization] has no part in the outcome. *)
Lemma ioUse_ignores_header a q h1 h2 u n :
  snd (ioUse jwt_verify env_JWT_SECRET (mkSocket (mkHandshake a q h1) u n))
  = snd (ioUse jwt_verify env_JWT_SECRET (mkSocket (mkHandshake a q h2) u n)).
Proof.
  unfold ioUse, token_of; simpl.
  destruct (truthy (Js.or a q)); simpl; [|reflexivity].
  now destruct (jwt_verify _ _).
Qed.

End HandshakeFacts.

(** C1.  A handshake whose credential is missing (no truthy token in the
    handshake) or does not verify ([jwt.verify] throws: malformed, expired,
    bad signature) is refused with an authentication error; the socket is
    left as it was, the connection listener does not run, so the core state
    is untouched, and the outcome is a refusal, not a connected socket. *)
Theorem handshake_rejects_bad_credential
    (jwt_verify : Js.jsval -> string -> option WsAuth.Decoded)
    (env_JWT_SECRET : option string)
    (Core : Type) (onConnection : WsAuth.Socket -> Core -> Core)
    (socket : WsAuth.Socket) (core : Core) :
  WsAuth.credential_rejected jwt_verify env_JWT_SECRET (WsAuth.handshake socket) ->
  exists message,
    WsAuth.is_auth_error message /\
    WsAuth.ioUse jwt_verify env_JWT_SECRET socket
    = (socket, WsAuth.NextError message) /\
    WsAuth.connect jwt_verify env_JWT_SECRET Core onConnection socket core
    = (WsAuth.Refused message, core).
Proof.
  intros Hbad. unfold WsAuth.credential_rejected in Hbad.
  destruct (Js.truthy (WsAuth.token_of (WsAuth.handshake socket))) eqn:Ht.
  - destruct Hbad as [Hbad | Hbad]; [congruence|].
    exists "Token inválido". split; [now right|].
    unfold WsAuth.connect.
    rewrite (ioUse_verify_throws _ _ _ Ht Hbad). now split.
  - exists "Autenticação necessária". split; [now left|].
    unfold WsAuth.connect.
    rewrite (ioUse_no_token _ _ _ Ht). now split.
Qed.

Lemma handshake_rejects_bad_credential_witness :
  WsAuth.credential_rejected sample_verify None
    (WsAuth.handshake (sample_socket Js.JUndefined (Js.JStr "expired") Js.JUndefined))
  /\ exists message,
    WsAuth.is_auth_error message /\
    WsAuth.ioUse sample_verify None
      (sample_socket Js.JUndefined (Js.JStr "expired") Js.JUndefined)
    = (sample_socket Js.JUndefined (Js.JStr "expired") Js.JUndefined,
       WsAuth.NextError message) /\
    WsAuth.connect sample_verify None nat (fun _ n => S n)
      (sample_socket Js.JUndefined (Js.JStr "expired") Js.JUndefined) 0
    = (WsAuth.Refused message, 0).
Proof.
  split.
  - right. reflexivity.
  - apply (handshake_rejects_bad_credential sample_verify None nat (fun _ n => S n)
             (sample_socket Js.JUndefined (Js.JStr "expired") Js.JUndefined) 0).
    right. reflexivity.
Defined.

(** A socket gets connected only on a token that is present and verifies. *)
Lemma connect_only_verified
    (jwt_verify : Js.jsval -> string -> option WsAuth.Decoded)
    (env_JWT_SECRET : option string)
    (Core : Type) (onConnection : WsAuth.Socket -> Core -> Core)
    (socket socket' : WsAuth.Socket) (core core' : Core) :
  WsAuth.connect jwt_verify env_JWT_SECRET Core onConnection socket core
  = (WsAuth.Connected socket', core') ->
  exists d,
    Js.truthy (WsAuth.token_of (WsAuth.handshake socket)) = true /\
    jwt_verify (WsAuth.token_of (WsAuth.handshake socket))
      (WsAuth.secret env_JWT_SECRET) = Some d.
Proof.
  unfold WsAuth.connect.
  destruct (WsAuth.ioUse jwt_verify env_JWT_SECRET socket) as [s nx] eqn:E.
  destruct nx; [|discriminate].
  intros _. now apply ioUse_ok_inv in E.
Qed.

(** C7, as stated, fails: a valid token presented in the header
    [Authorization: Bearer <token>] alone does not authenticate. *)
Lemma handshake_header_token_refused :
  ~ (forall (jwt_verify : Js.jsval -> string -> option WsAuth.Decoded)
            (env_JWT_SECRET : option string) (socket : WsAuth.Socket)
            (token : string) (d : WsAuth.Decoded),
        jwt_verify (Js.JStr token) (WsAuth.secret env_JWT_SECRET) = Some d ->
        WsAuth.headers_authorization (WsAuth.handshake socket)
        = Js.JStr ("Bearer " ++ token) ->
        snd (WsAuth.ioUse jwt_verify env_JWT_SECRET socket) = WsAuth.NextOk).
Proof.
  intros H.
  specialize (H sample_verify None
                (sample_socket Js.JUndefined Js.JUndefined
                   (Js.JStr "Bearer good-token"))
                "good-token" (WsAuth.mkDecoded (Js.JStr "u1") (Js.JStr "ana"))
                eq_refl eq_refl).
  discriminate H.
Qed.

(** C7, amended.  The token is read from the [auth.token] field of the
    handshake or, when that is not truthy, from the query parameter
    [token]; a token that is truthy and verifies authenticates the socket
    through either of the two, with the identity of the decoded payload.
    The header [Authorization] is not consulted. *)
Theorem handshake_token_channels
    (jwt_verify : Js.jsval -> string -> option WsAuth.Decoded)
    (env_JWT_SECRET : option string)
    (socket : WsAuth.Socket) (token : Js.jsval) (d : WsAuth.Decoded) :
  Js.truthy token = true ->
  jwt_verify token (WsAuth.secret env_JWT_SECRET) = Some d ->
  WsAuth.auth_token (WsAuth.handshake socket) = token
  \/ (Js.truthy (WsAuth.auth_token (WsAuth.handshake socket)) = false
      /\ WsAuth.query_token (WsAuth.handshake socket) = token) ->
  WsAuth.ioUse jwt_verify env_JWT_SECRET socket
  = ({| WsAuth.handshake := WsAuth.handshake socket;
        WsAuth.userId := WsAuth.decoded_userId d;
        WsAuth.username := WsAuth.decoded_username d |}, WsAuth.NextOk)
  /\ forall header,
       snd (WsAuth.ioUse jwt_verify env_JWT_SECRET
              (WsAuth.mkSocket
                 (WsAuth.mkHandshake
                    (WsAuth.auth_token (WsAuth.handshake socket))
                    (WsAuth.query_token (WsAuth.handshake socket)) header)
                 (WsAuth.userId socket) (WsAuth.username socket)))
       = WsAuth.NextOk.
Proof.
  intros Ht Hv Hwhere.
  assert (Htok : WsAuth.token_of (WsAuth.handshake socket) = token).
  { unfold WsAuth.token_of, Js.or.
    destruct Hwhere as [<- | [Hf <-]]; [now rewrite Ht | now rewrite Hf]. }
  assert (Hio : WsAuth.ioUse jwt_verify env_JWT_SECRET socket
                = ({| WsAuth.handshake := WsAuth.handshake socket;
                      WsAuth.userId := WsAuth.decoded_userId d;
                      WsAuth.username := WsAuth.decoded_username d |},
                   WsAuth.NextOk)).
  { apply ioUse_verified; now rewrite Htok. }
  split; [exact Hio|].
  intros header. destruct socket as [[a q h] u n]; simpl in *.
  rewrite (ioUse_ignores_header jwt_verify env_JWT_SECRET a q header h u n).
  now rewrite Hio.
Qed.

Lemma handshake_token_channels_witness :
  WsAuth.ioUse sample_verify None
    (sample_socket (Js.JStr "") (Js.JStr "good-token") Js.JUndefined)
  = ({| WsAuth.handshake :=
          WsAuth.mkHandshake (Js.JStr "") (Js.JStr "good-token") Js.JUndefined;
        WsAuth.userId := Js.JStr "u1";
        WsAuth.username := Js.JStr "ana" |}, WsAuth.NextOk).
Proof.
  apply (handshake_token_channels sample_verify None
           (sample_socket (Js.JStr "") (Js.JStr "good-token") Js.JUndefined)
           (Js.JStr "good-token")
           (WsAuth.mkDecoded (Js.JStr "u1") (Js.JStr "ana"))).
  - reflexivity.
  - reflexivity.
  - right. split; reflexivity.
Defined.

(** ** The service worker *)

Section WorkerFacts.
Import Worker.

Variable pathname : string -> string.
Variable resolve : string -> string.
Variable fetch : Request -> option Response.

Lemma onFetch_skipped request cs :
  skipped pathname request = true ->
  onFetch pathname resolve fetch request cs = (PassThrough, cs).
Proof.
  unfold skipped, onFetch.
  destruct (negb (String.eqb (method request) "GET")); simpl; [reflexivity|].
  now intros ->.
Qed.

Lemma onFetch_intercepted request cs :
  skipped pathname request = false ->
  onFetch pathname resolve fetch request cs
  = match fetch request with
    | Some response =>
        (RespondWith (Some response),
         caches_put CACHE_NAME (url request) response cs)
    | None =>
        match caches_match (url request) cs with
        | Some cachedResponse => (RespondWith (Some cachedResponse), cs)
        | None =>
            if String.eqb (mode request) "navigate"
            then (RespondWith (caches_match (resolve "/index.html") cs), cs)
            else (RespondWith (Some offline), cs)
        end
    end.
Proof.
  unfold skipped, onFetch.
  destruct (negb (String.eqb (method request) "GET")); simpl; [discriminate|].
  now intros ->.
Qed.

End WorkerFacts.

(** C8, as stated, fails: with a cached response at hand and the network
    up, the worker answers with the network's response. *)
Lemma worker_not_cache_first :
  ~ (forall (pathname resolve : string -> string)
            (fetch : Worker.Request -> option Worker.Response)
            (request : Worker.Request) (cs : Worker.CacheStorage)
            (cached : Worker.Response),
        Worker.skipped pathname request = false ->
        Worker.caches_match (Worker.url request) cs = Some cached ->
        fst (Worker.onFetch pathname resolve fetch request cs)
        = Worker.RespondWith (Some cached)).
Proof.
  intros H.
  specialize (H (fun _ => "/index.html") (fun p => "https://gochat.example" ++ p)
                (fun _ => Some fresh_page) sample_page sample_caches stale_page
                eq_refl eq_refl).
  discriminate H.
Qed.

(** C8, amended.  The fetch handling is network-first: for every
    intercepted GET request the worker answers with the network's response
    when the fetch succeeds, and consults the cache only when the fetch
    fails, serving the cached response when one exists. *)
Theorem worker_network_first
    (pathname resolve : string -> string)
    (fetch : Worker.Request -> option Worker.Response)
    (request : Worker.Request) (cs : Worker.CacheStorage) :
  Worker.skipped pathname request = false ->
  (forall response,
      fetch request = Some response ->
      fst (Worker.onFetch pathname resolve fetch request cs)
      = Worker.RespondWith (Some response))
  /\ (forall cached,
         fetch request = None ->
         Worker.caches_match (Worker.url request) cs = Some cached ->
         Worker.onFetch pathname resolve fetch request cs
         = (Worker.RespondWith (Some cached), cs)).
Proof.
  intros Hin. rewrite (onFetch_intercepted _ _ _ _ _ Hin).
  split.
  - intros response ->. reflexivity.
  - intros cached -> ->. reflexivity.
Qed.

Lemma worker_network_first_witness :
  Worker.skipped (fun _ => "/index.html") sample_page = false
  /\ Worker.onFetch (fun _ => "/index.html")
       (fun p => "https://gochat.example" ++ p) (fun _ => None)
       sample_page sample_caches
     = (Worker.RespondWith (Some stale_page), sample_caches).
Proof.
  split; [reflexivity|].
  apply (proj2 (worker_network_first (fun _ => "/index.html")
                  (fun p => "https://gochat.example" ++ p) (fun _ => None)
                  sample_page sample_caches eq_refl) stale_page); reflexivity.
Defined.

(** C9.  A request whose method is not GET, or whose path starts with
    [/api/] or [/socket.io/], is left alone: the listener returns without
    [respondWith], whatever the network and the caches hold, and the caches
    are as before. *)
Theorem worker_passes_through
    (pathname resolve : string -> string)
    (fetch : Worker.Request -> option Worker.Response)
    (request : Worker.Request) (cs : Worker.CacheStorage) :
  Worker.method request <> "GET"
  \/ String.prefix "/api/" (pathname (Worker.url request)) = true
  \/ String.prefix "/socket.io/" (pathname (Worker.url request)) = true ->
  Worker.onFetch pathname resolve fetch request cs = (Worker.PassThrough, cs).
Proof.
  intros H. apply onFetch_skipped. unfold Worker.skipped.
  destruct H as [H | [H | H]].
  - apply String.eqb_neq in H. now rewrite H.
  - rewrite H. now destruct (negb _).
  - rewrite H. destruct (negb _); [reflexivity|]. now destruct (String.prefix "/api/" _).
Qed.

Lemma worker_passes_through_witness :
  String.prefix "/socket.io/" "/socket.io/?EIO=4" = true
  /\ Worker.onFetch (fun _ => "/socket.io/?EIO=4")
       (fun p => "https://gochat.example" ++ p) (fun _ => Some fresh_page)
       {| Worker.method := "GET";
          Worker.url := "https://gochat.example/socket.io/?EIO=4";
          Worker.mode := "cors" |} sample_caches
     = (Worker.PassThrough, sample_caches).
Proof.
  split; [reflexivity|].
  apply (worker_passes_through (fun _ => "/socket.io/?EIO=4")
           (fun p => "https://gochat.example" ++ p) (fun _ => Some fresh_page)).
  right. right. reflexivity.
Defined.

(** ** The HTTP rate limiters *)

Section LimiterFacts.
Import Http.

Lemma increment_hits o now key (s : Store) :
  fst (increment o now key s) = S (hits_in_window now key s).
Proof.
  unfold increment, hits_in_window; simpl.
  destruct (s !! key) as [c|]; [|reflexivity].
  now destruct (resetTime c <=? now)%Z.
Qed.

(** A hit is counted in the window that is running after it. *)
Lemma increment_counts o now key (s : Store) :
  (0 < windowMs o)%Z ->
  hits_in_window now key (snd (increment o now key s))
  = S (hits_in_window now key s).
Proof.
  intros Hw. unfold increment, hits_in_window; simpl.
  rewrite lookup_insert_eq; simpl.
  destruct (s !! key) as [c|].
  - destruct (resetTime c <=? now)%Z eqn:E; simpl.
    + destruct (Z.leb_spec (now + windowMs o) now); [lia|reflexivity].
    + now rewrite E.
  - simpl. destruct (Z.leb_spec (now + windowMs o) now); [lia|reflexivity].
Qed.

(** The hits of other addresses are not touched. *)
Lemma increment_other o now key key' t (s : Store) :
  key <> key' ->
  hits_in_window t key' (snd (increment o now key s)) = hits_in_window t key' s.
Proof.
  intros Hne. unfold increment, hits_in_window; simpl.
  now rewrite lookup_insert_ne.
Qed.

(** A limiter refuses exactly the requests that come on top of [max]
    counted hits. *)
Lemma rateLimit_verdict o now req (s : Store) :
  fst (rateLimit o now req s)
  = if Nat.ltb (max o) (S (hits_in_window now (ip req) s))
    then Respond 429 (Some (body o)) else Pass.
Proof.
  unfold rateLimit.
  pose proof (increment_hits o now (ip req) s) as Hh.
  destruct (increment o now (ip req) s) as [hits s']; simpl in *. subst hits.
  now destruct (Nat.ltb _ _).
Qed.

Lemma rateLimit_store o now req (s : Store) :
  snd (rateLimit o now req s) = snd (increment o now (ip req) s).
Proof.
  unfold rateLimit.
  destruct (increment o now (ip req) s) as [hits s']; simpl.
  now destruct (Nat.ltb _ _).
Qed.

Lemma rateLimit_over o now req (s : Store) :
  max o <= hits_in_window now (ip req) s ->
  fst (rateLimit o now req s) = Respond 429 (Some (body o)).
Proof.
  intros Hover. rewrite rateLimit_verdict.
  destruct (Nat.ltb_spec (max o) (S (hits_in_window now (ip req) s)));
    [reflexivity|lia].
Qed.

Lemma rateLimit_under o now req (s : Store) :
  hits_in_window now (ip req) s < max o ->
  fst (rateLimit o now req s) = Pass.
Proof.
  intros Hunder. rewrite rateLimit_verdict.
  destruct (Nat.ltb_spec (max o) (S (hits_in_window now (ip req) s)));
    [lia|reflexivity].
Qed.

(** One mounted limiter at the head of a stack. *)
Lemma run_stack_cons mount w rest now req l :
  applies mount req = true ->
  run_stack ((mount, w) :: rest) now req l
  = match fst (rateLimit (options_of w) now req (store_of w l)) with
    | Pass =>
        run_stack rest now req
          (set_store w (snd (rateLimit (options_of w) now req (store_of w l))) l)
    | refusal =>
        (refusal,
         set_store w (snd (rateLimit (options_of w) now req (store_of w l))) l)
    end.
Proof.
  intros Ha. simpl. rewrite Ha.
  destruct (rateLimit (options_of w) now req (store_of w l)) as [v s'].
  now destruct v.
Qed.

Lemma run_stack_skip mount w rest now req l :
  applies mount req = false ->
  run_stack ((mount, w) :: rest) now req l = run_stack rest now req l.
Proof. intros Ha. simpl. now rewrite Ha. Qed.

(** The global stage leaves the store of the login limiter alone. *)
Lemma auth_store_set_global s l :
  auth_store (set_store Global s l) = auth_store l.
Proof. reflexivity. Qed.

(** A stack whose first applicable limiter is over its limit refuses. *)
Lemma auth_stage_refuses rest now req l :
  (applies (Some "/api/auth/login") req = true
   \/ applies (Some "/api/auth/register") req = true) ->
  Http.max authLimiter <= hits_in_window now (ip req) (auth_store l) ->
  fst (run_stack
         ((Some "/api/auth/login", Auth) :: (Some "/api/auth/register", Auth) :: rest)
         now req l)
  = Respond 429 (Some (body authLimiter)).
Proof.
  intros Hpath Hover.
  destruct (applies (Some "/api/auth/login") req) eqn:E1.
  - rewrite run_stack_cons by exact E1.
    simpl store_of. simpl options_of.
    now rewrite (rateLimit_over authLimiter now req (auth_store l) Hover).
  - rewrite run_stack_skip by exact E1.
    destruct Hpath as [Hp | Hp]; [discriminate|].
    rewrite run_stack_cons by exact Hp.
    simpl store_of. simpl options_of.
    now rewrite (rateLimit_over authLimiter now req (auth_store l) Hover).
Qed.

Lemma app_not_options now req l :
  method req <> "OPTIONS" ->
  app now req l = run_stack limiter_stack now req l.
Proof.
  intros Hm. unfold app, cors.
  apply String.eqb_neq in Hm. now rewrite Hm.
Qed.

End LimiterFacts.


(** The login limiter in numbers: five posts go through, the sixth is
    refused with the login message, also when it goes to the other of the
    two routes, which share the limiter instance. *)
Example http_login_run :
  fst (Http.serve
         (replicate 5 (0%Z, post_login "10.0.0.7")
          ++ [(1%Z, {| Http.method := "POST"; Http.path := "/api/auth/register";
                       Http.ip := "10.0.0.7" |})])%list
         Http.no_limits)
  = (replicate 5 Http.Pass
     ++ [Http.Respond 429 (Some (Http.body Http.authLimiter))])%list.
Proof. vm_compute. reflexivity. Qed.

(** ** The connection and channel registries *)

Section RegistryFacts.
Import Core.

Lemma has_joined_alt id ch st : has_joined id ch st <-> ch ∈ joined_of id st.
Proof.
  unfold has_joined, joined_of. destruct (connections st !! id) as [c|]; simpl.
  - split; [intros (c' & [= <-] & H); exact H | intros H; now exists c].
  - split; [intros (c' & [=] & _) | set_solver].
Qed.

Lemma consistent_alt st :
  consistent st <-> forall id ch, ch ∈ joined_of id st <-> id ∈ membersOf ch st.
Proof.
  unfold consistent. split; intros H id ch; specialize (H id ch);
    now rewrite has_joined_alt in *.
Qed.

(** *** Eviction *)

Lemma members_evict id ch ch' (chans : gmap ChannelId (gset ConnId)) :
  default ∅ (evict id ch chans !! ch')
  = if decide (ch = ch') then default ∅ (chans !! ch) ∖ {[id]}
    else default ∅ (chans !! ch').
Proof.
  unfold evict. rewrite lookup_partial_alter.
  destruct (decide (ch = ch')) as [->|]; [|reflexivity].
  destruct (chans !! ch') as [m|]; simpl.
  - destruct (decide (m ∖ {[id]} = ∅)) as [E|]; simpl; [now rewrite E | reflexivity].
  - set_solver.
Qed.

Lemma members_evict_all id ch (l : list ChannelId)
    (chans : gmap ChannelId (gset ConnId)) :
  default ∅ (foldr (evict id) chans l !! ch)
  = if decide (ch ∈ l) then default ∅ (chans !! ch) ∖ {[id]}
    else default ∅ (chans !! ch).
Proof.
  induction l as [|a l IH]; simpl.
  - destruct (decide (ch ∈ [])) as [H|]; [|reflexivity]. now apply elem_of_nil in H.
  - rewrite members_evict, IH.
    destruct (decide (a = ch)) as [->|Hne]; destruct (decide (ch ∈ l));
      destruct (decide (ch ∈ _ :: l)); set_solver.
Qed.

Lemma evict_no_empty id ch (chans : gmap ChannelId (gset ConnId)) :
  (forall c m, chans !! c = Some m -> m ≠ ∅) ->
  forall c m, evict id ch chans !! c = Some m -> m ≠ ∅.
Proof.
  intros Hne c m. unfold evict. rewrite lookup_partial_alter.
  destruct (decide (ch = c)) as [->|]; [|apply Hne].
  destruct (chans !! c) as [m'|]; simpl; [|discriminate].
  destruct (decide (m' ∖ {[id]} = ∅)); [discriminate|]. now intros [= <-].
Qed.

Lemma evict_all_no_empty id (l : list ChannelId)
    (chans : gmap ChannelId (gset ConnId)) :
  (forall c m, chans !! c = Some m -> m ≠ ∅) ->
  forall c m, foldr (evict id) chans l !! c = Some m -> m ≠ ∅.
Proof.
  intros Hne. induction l as [|a l IH]; simpl; [exact Hne|].
  now apply evict_no_empty.
Qed.

(** *** The state after each operation, seen through the two views *)

Lemma joined_of_register who now id st :
  joined_of id (snd (register who now st))
  = if decide (id = nextId st) then ∅ else joined_of id st.
Proof.
  unfold joined_of, register; simpl.
  destruct (decide (id = nextId st)) as [->|Hne].
  - now rewrite lookup_insert_eq.
  - now rewrite lookup_insert_ne by (intros E; now apply Hne).
Qed.

Lemma joined_of_unregister id id' st :
  joined_of id' (unregister id st)
  = if decide (id' = id) then ∅ else joined_of id' st.
Proof.
  unfold joined_of, unregister.
  destruct (connections st !! id) as [c|] eqn:E; simpl.
  - destruct (decide (id' = id)) as [->|Hne].
    + now rewrite lookup_delete_eq.
    + now rewrite lookup_delete_ne by (intros E'; now apply Hne).
  - destruct (decide (id' = id)) as [->|]; [now rewrite E | reflexivity].
Qed.

Lemma members_unregister id ch st :
  membersOf ch (unregister id st)
  = if decide (ch ∈ joined_of id st) then membersOf ch st ∖ {[id]}
    else membersOf ch st.
Proof.
  unfold membersOf, joined_of, unregister.
  destruct (connections st !! id) as [c|]; simpl.
  - rewrite members_evict_all.
    destruct (decide (ch ∈ elements (joinedChannels c))) as [H|H];
      rewrite elem_of_elements in H.
    + now rewrite decide_True.
    + now rewrite decide_False.
  - rewrite decide_False; [reflexivity | set_solver].
Qed.

Lemma joined_of_touch id id' now st :
  joined_of id' (touch id now st) = joined_of id' st.
Proof.
  unfold joined_of, touch; simpl. rewrite lookup_alter.
  destruct (decide (id = id')) as [->|]; [|reflexivity].
  now destruct (connections st !! id').
Qed.

Lemma joined_of_join id ch id' st :
  joined_of id' (snd (join id ch st))
  = if decide (id' = id)
    then (if decide (id ∈ dom (connections st))
          then {[ch]} ∪ joined_of id st else ∅)
    else joined_of id' st.
Proof.
  unfold joined_of, join.
  destruct (connections st !! id) as [c|] eqn:E; simpl.
  - destruct (decide (id' = id)) as [->|Hne].
    + rewrite lookup_insert_eq; simpl.
      rewrite decide_True; [reflexivity|]. apply elem_of_dom. now exists c.
    + now rewrite lookup_insert_ne by (intros E'; now apply Hne).
  - destruct (decide (id' = id)) as [->|]; [|reflexivity].
    rewrite E; simpl. rewrite decide_False; [reflexivity|].
    intros [c Hc]%elem_of_dom. congruence.
Qed.

Lemma members_join id ch ch' st :
  membersOf ch' (snd (join id ch st))
  = if decide (ch' = ch ∧ id ∈ dom (connections st))
    then {[id]} ∪ membersOf ch st else membersOf ch' st.
Proof.
  unfold membersOf, join.
  destruct (connections st !! id) as [c|] eqn:E; simpl.
  - destruct (decide (ch' = ch)) as [->|Hne].
    + rewrite lookup_insert_eq; simpl.
      rewrite decide_True; [reflexivity|].
      split; [reflexivity|]. apply elem_of_dom. now exists c.
    + rewrite lookup_insert_ne by (intros E'; now apply Hne).
      rewrite decide_False; [reflexivity|]. now intros [? _].
  - rewrite decide_False; [reflexivity|].
    intros [_ [c Hc]%elem_of_dom]. congruence.
Qed.

Lemma joined_of_leave id ch id' st :
  joined_of id' (snd (leave id ch st))
  = if decide (id' = id ∧ id ∈ membersOf ch st)
    then joined_of id st ∖ {[ch]} else joined_of id' st.
Proof.
  unfold joined_of, leave.
  destruct (decide (id ∈ membersOf ch st)) as [Hin|Hnin]; simpl.
  - rewrite lookup_alter.
    destruct (decide (id = id')) as [->|Hne].
    + rewrite decide_True by (split; [reflexivity | exact Hin]).
      destruct (connections st !! id'); simpl; [reflexivity | set_solver].
    + rewrite decide_False; [reflexivity|]. intros [-> _]. now apply Hne.
  - rewrite decide_False; [reflexivity|]. now intros [_ ?].
Qed.

Lemma members_leave id ch ch' st :
  membersOf ch' (snd (leave id ch st))
  = if decide (ch' = ch) then membersOf ch st ∖ {[id]} else membersOf ch' st.
Proof.
  unfold leave.
  destruct (decide (id ∈ membersOf ch st)) as [Hin|Hnin]; simpl.
  - unfold membersOf; simpl. rewrite members_evict.
    destruct (decide (ch = ch')) as [->|Hne].
    + now rewrite decide_True.
    + rewrite decide_False; [reflexivity|]. intros ->. now apply Hne.
  - destruct (decide (ch' = ch)) as [->|]; [|reflexivity]. set_solver.
Qed.

End RegistryFacts.

Ltac use_views H :=
  let V := fresh in
  pose proof (proj1 (consistent_alt _) H) as V; clear H; rename V into H.

Section InvariantFacts.
Import Core.

Variable cfg : Config.

Lemma members_register who now ch st :
  membersOf ch (snd (register who now st)) = membersOf ch st.
Proof. reflexivity. Qed.

Lemma members_touch id now ch st : membersOf ch (touch id now st) = membersOf ch st.
Proof. reflexivity. Qed.

(** A state that differs only in the rate guard and the transports. *)
Lemma well_formed_same st st' :
  connections st' = connections st ->
  channels st' = channels st ->
  nextId st' = nextId st ->
  well_formed st -> well_formed st'.
Proof.
  intros Hc Hch Hn (Hcons & Hne & Hid).
  unfold well_formed, consistent, no_empty_channel, ids_below_next,
    has_joined, membersOf in *.
  rewrite Hc, Hch, Hn. auto.
Qed.

Lemma well_formed_init : well_formed init.
Proof.
  repeat split.
  - intros (c & Hc & _). simpl in Hc. now rewrite lookup_empty in Hc.
  - unfold membersOf; simpl. rewrite lookup_empty. set_solver.
  - intros ch m. simpl. now rewrite lookup_empty.
  - intros id c. simpl. now rewrite lookup_empty.
Qed.

Lemma unregistered_not_member id ch st :
  well_formed st -> connections st !! id = None -> id ∉ membersOf ch st.
Proof.
  intros (Hcons & _ & _) Hnone Hin.
  apply Hcons in Hin. destruct Hin as (c & Hc & _). congruence.
Qed.

Lemma well_formed_register who now st :
  well_formed st -> well_formed (snd (register who now st)).
Proof.
  intros Hwf. pose proof Hwf as (Hcons & Hne & Hid).
  split; [|split].
  - apply consistent_alt. intros id ch.
    rewrite joined_of_register, members_register.
    use_views Hcons.
    destruct (decide (id = nextId st)) as [->|]; [|apply Hcons].
    split; [set_solver|]. intros Hin. exfalso.
    destruct (connections st !! nextId st) as [c|] eqn:E.
    + apply Hid in E. lia.
    + now apply (unregistered_not_member _ ch _ Hwf E).
  - exact Hne.
  - intros id c. unfold register; simpl. rewrite lookup_insert_Some.
    intros [[<- _] | [_ H]]; [lia|]. apply Hid in H. lia.
Qed.

Lemma well_formed_unregister id st :
  well_formed st -> well_formed (unregister id st).
Proof.
  intros (Hcons & Hne & Hid). split; [|split].
  - apply consistent_alt. intros id' ch.
    rewrite joined_of_unregister, members_unregister.
    use_views Hcons.
    pose proof (Hcons id ch). pose proof (Hcons id' ch).
    destruct (decide (id' = id)) as [->|];
      destruct (decide (ch ∈ joined_of id st)); set_solver.
  - unfold no_empty_channel, unregister.
    destruct (connections st !! id) as [c|]; simpl; [|exact Hne].
    now apply evict_all_no_empty.
  - unfold ids_below_next, unregister.
    destruct (connections st !! id) as [c|]; simpl; [|exact Hid].
    intros id' c'. rewrite lookup_delete_Some. intros [_ H]. now apply Hid in H.
Qed.

Lemma well_formed_touch id now st :
  well_formed st -> well_formed (touch id now st).
Proof.
  intros (Hcons & Hne & Hid). split; [|split].
  - apply consistent_alt. intros id' ch.
    rewrite joined_of_touch, members_touch. use_views Hcons. apply Hcons.
  - exact Hne.
  - intros id' c'. unfold touch; simpl. rewrite lookup_alter_Some.
    intros [(_ & c & H & _) | [_ H]]; now apply Hid in H.
Qed.

Lemma well_formed_join id ch st :
  well_formed st -> well_formed (snd (join id ch st)).
Proof.
  intros (Hcons & Hne & Hid). split; [|split].
  - apply consistent_alt. intros id' ch'.
    rewrite joined_of_join, members_join.
    use_views Hcons.
    pose proof (Hcons id ch). pose proof (Hcons id' ch').
    pose proof (Hcons id ch'). pose proof (Hcons id' ch).
    assert (Hout : id ∉ dom (connections st) -> joined_of id st = ∅).
    { intros Hnd. unfold joined_of.
      destruct (connections st !! id) as [c|] eqn:E; [|reflexivity].
      exfalso. apply Hnd, elem_of_dom. now exists c. }
    destruct (decide (id' = id)) as [->|];
      destruct (decide (id ∈ dom (connections st))) as [Hd|Hd];
      destruct (decide (ch' = ch ∧ id ∈ dom (connections st))) as [[? ?]|Hn];
      try specialize (Hout Hd); set_solver.
  - unfold no_empty_channel, join.
    destruct (connections st !! id) as [c|]; simpl; [|exact Hne].
    intros ch' m. rewrite lookup_insert_Some.
    intros [[_ <-] | [_ H]]; [set_solver | now apply Hne in H].
  - unfold ids_below_next, join.
    destruct (connections st !! id) as [c|] eqn:E; simpl; [|exact Hid].
    intros id' c'. rewrite lookup_insert_Some.
    intros [[<- _] | [_ H]]; [now apply Hid in E | now apply Hid in H].
Qed.

Lemma well_formed_leave id ch st :
  well_formed st -> well_formed (snd (leave id ch st)).
Proof.
  intros (Hcons & Hne & Hid). split; [|split].
  - apply consistent_alt. intros id' ch'.
    rewrite joined_of_leave, members_leave.
    use_views Hcons.
    pose proof (Hcons id ch). pose proof (Hcons id' ch').
    pose proof (Hcons id ch'). pose proof (Hcons id' ch).
    destruct (decide (id' = id ∧ id ∈ membersOf ch st)) as [[-> ?]|Hn];
      destruct (decide (ch' = ch)) as [->|]; set_solver.
  - unfold no_empty_channel, leave.
    destruct (decide (id ∈ membersOf ch st)); simpl; [|exact Hne].
    now apply evict_no_empty.
  - unfold ids_below_next, leave.
    destruct (decide (id ∈ membersOf ch st)); simpl; [|exact Hid].
    intros id' c'. rewrite lookup_alter_Some.
    intros [(_ & c & H & _) | [_ H]]; now apply Hid in H.
Qed.

Lemma well_formed_publish now id ch body st :
  well_formed st -> well_formed (snd (publish cfg now id ch body st)).
Proof.
  unfold publish. destruct (decide (id ∈ membersOf ch st)); [|trivial].
  now apply well_formed_same.
Qed.

Lemma well_formed_guard now id st :
  well_formed st -> well_formed (snd (guard_admit cfg now id st)).
Proof. now apply well_formed_same. Qed.

Lemma well_formed_reply id r :
  well_formed (snd r) -> well_formed (snd (reply id r)).
Proof.
  destruct r as [[ids|e] st]; simpl; [trivial|]. now apply well_formed_same.
Qed.

Lemma well_formed_handle now id ev st :
  well_formed st -> well_formed (snd (handle cfg now id ev st)).
Proof.
  intros Hwf. apply (well_formed_touch id now) in Hwf.
  unfold handle. destruct ev as [ch|ch|ch body].
  - now apply well_formed_reply, well_formed_join.
  - now apply well_formed_reply, well_formed_leave.
  - apply (well_formed_guard now id) in Hwf.
    destruct (guard_admit cfg now id (touch id now st)) as [allow st2]; simpl in Hwf.
    destruct allow; apply well_formed_reply; [|exact Hwf].
    now apply well_formed_publish.
Qed.

Lemma well_formed_step st op :
  well_formed st -> well_formed (step cfg st op).
Proof.
  destruct op as [now [who|id|id ev]]; simpl.
  - apply well_formed_register.
  - apply well_formed_unregister.
  - apply well_formed_handle.
Qed.

Lemma well_formed_run ops st :
  well_formed st -> well_formed (run cfg ops st).
Proof.
  revert st. induction ops as [|op ops IH]; intros st Hwf; [exact Hwf|].
  simpl. now apply IH, well_formed_step.
Qed.

End InvariantFacts.

(** ** Transports, fan-out and the rate guard *)

Section RouterFacts.
Import Core.

Variable cfg : Config.

Lemma lookup_send f to r (w : gmap ConnId (list Frame)) :
  default [] (send f to w !! r)
  = if decide (r = to) then (default [] (w !! to) ++ [f])%list
    else default [] (w !! r).
Proof.
  unfold send. destruct (decide (r = to)) as [->|Hne].
  - now rewrite lookup_insert_eq.
  - now rewrite lookup_insert_ne by (intros E; now apply Hne).
Qed.

(** A fan-out over distinct recipients writes the frame once to each. *)
Lemma lookup_fanout f (l : list ConnId) r (w : gmap ConnId (list Frame)) :
  NoDup l ->
  default [] (foldr (send f) w l !! r)
  = if decide (r ∈ l) then (default [] (w !! r) ++ [f])%list
    else default [] (w !! r).
Proof.
  induction 1 as [|a l Hnotin Hnd IH]; simpl.
  - now destruct (decide (r ∈ [])) as [?%elem_of_nil|].
  - rewrite lookup_send.
    destruct (decide (r = a)) as [->|Hne].
    + rewrite decide_True by (apply elem_of_cons; now left).
      rewrite IH. now rewrite decide_False.
    + rewrite IH. destruct (decide (r ∈ l)) as [Hin|Hnin].
      * rewrite decide_True by (apply elem_of_cons; now right). reflexivity.
      * rewrite decide_False; [reflexivity|].
        intros [?|?]%elem_of_cons; [now apply Hne | now apply Hnin].
Qed.

Lemma publish_not_member now sender ch body st :
  sender ∉ membersOf ch st ->
  publish cfg now sender ch body st = (Err NotMemberError, st).
Proof. intros H. unfold publish. now rewrite decide_False. Qed.

Lemma publish_member now sender ch body st :
  sender ∈ membersOf ch st ->
  fst (publish cfg now sender ch body st) = Ok (recipients cfg sender ch st)
  /\ (forall c, membersOf c (snd (publish cfg now sender ch body st)) = membersOf c st)
  /\ forall r,
       sent_to r (snd (publish cfg now sender ch body st))
       = if decide (r ∈ recipients cfg sender ch st)
         then (sent_to r st
               ++ [Delivered {| channelId := ch; senderId := sender;
                                payload := body; timestamp := now |}])%list
         else sent_to r st.
Proof.
  intros H. unfold publish. rewrite decide_True by exact H. simpl.
  split; [reflexivity|]. split; [reflexivity|].
  intros r. unfold sent_to; simpl.
  rewrite lookup_fanout by apply NoDup_elements.
  destruct (decide (r ∈ elements (recipients cfg sender ch st))) as [Hin|Hnin];
    rewrite elem_of_elements in *.
  - now rewrite decide_True.
  - now rewrite decide_False.
Qed.

Lemma sent_to_reply_err id r e st :
  sent_to r (snd (reply id (Err e, st)))
  = if decide (r = id) then (sent_to id st ++ [Rejection e])%list else sent_to r st.
Proof. unfold sent_to; simpl. apply lookup_send. Qed.









End RouterFacts.

Section DeliveryFacts.
Import Core.

Variable cfg : Config.

Lemma sent_to_join id ch r st : sent_to r (snd (join id ch st)) = sent_to r st.
Proof. unfold join. now destruct (connections st !! id). Qed.

Lemma sent_to_leave id ch r st : sent_to r (snd (leave id ch st)) = sent_to r st.
Proof. unfold leave. now destruct (decide (id ∈ membersOf ch st)). Qed.

Lemma sent_to_unregister id r st : sent_to r (unregister id st) = sent_to r st.
Proof. unfold unregister. now destruct (connections st !! id). Qed.

(** A reply writes nothing, or one rejection. *)
Lemma reply_written now op id r (res : Result * State) :
  exists fs,
    sent_to r (snd (reply id res)) = (sent_to r (snd res) ++ fs)%list
    /\ written now op fs.
Proof.
  destruct res as [[ids|e] st].
  - exists []. split; [now rewrite app_nil_r | constructor].
  - rewrite sent_to_reply_err. simpl.
    destruct (decide (r = id)) as [->|].
    + exists [Rejection e]. split; [reflexivity | constructor].
    + exists []. split; [now rewrite app_nil_r | constructor].
Qed.

Lemma publish_written now id ch body r st :
  exists fs,
    sent_to r (snd (reply id (publish cfg now id ch body st)))
    = (sent_to r st ++ fs)%list
    /\ written now (Receive id (Publish ch body)) fs.
Proof.
  destruct (decide (id ∈ membersOf ch st)) as [Hin|Hnin].
  - destruct (publish_member cfg now id ch body st Hin) as (Hf & _ & Hs).
    destruct (publish cfg now id ch body st) as [res st'] eqn:E.
    simpl in Hf, Hs. subst res. simpl. rewrite Hs.
    destruct (decide (r ∈ recipients cfg id ch st)).
    + eexists. split; [reflexivity|]. now eapply written_event.
    + exists []. split; [now rewrite app_nil_r | constructor].
  - rewrite (publish_not_member cfg now id ch body st Hnin).
    apply (reply_written now _ id r (Err NotMemberError, st)).
Qed.

Lemma handle_written now id ev r st :
  exists fs,
    sent_to r (snd (handle cfg now id ev st)) = (sent_to r st ++ fs)%list
    /\ written now (Receive id ev) fs.
Proof.
  unfold handle. destruct ev as [ch|ch|ch body].
  - destruct (reply_written now (Receive id (Join ch)) id r
                (join id ch (touch id now st))) as (fs & E & W).
    exists fs. split; [|exact W]. now rewrite E, sent_to_join.
  - destruct (reply_written now (Receive id (Leave ch)) id r
                (leave id ch (touch id now st))) as (fs & E & W).
    exists fs. split; [|exact W]. now rewrite E, sent_to_leave.
  - assert (Hw : sent_to r (snd (guard_admit cfg now id (touch id now st)))
                 = sent_to r st) by reflexivity.
    destruct (guard_admit cfg now id (touch id now st)) as [allow st2].
    simpl in Hw. rewrite <- Hw. destruct allow.
    + apply publish_written.
    + apply (reply_written now _ id r (Err RateLimitedError, st2)).
Qed.

Lemma step_written now op r st :
  exists fs,
    sent_to r (step cfg st (now, op)) = (sent_to r st ++ fs)%list
    /\ written now op fs.
Proof.
  destruct op as [who|id|id ev]; simpl.
  - exists []. split; [now rewrite app_nil_r | constructor].
  - exists []. split; [now rewrite sent_to_unregister, app_nil_r | constructor].
  - apply handle_written.
Qed.

(** What a step writes carries, for a sender and a channel, at most the
    payload that step published. *)
Lemma heard_written now op fs sender ch :
  written now op fs -> heard sender ch fs `sublist_of` said sender ch [(now, op)].
Proof.
  intros [|e|id c body ->]; simpl.
  - apply sublist_nil_l.
  - apply sublist_nil_l.
  - now destruct (decide (id = sender ∧ c = ch)).
Qed.

Lemma said_cons sender ch o ops :
  said sender ch (o :: ops) = (said sender ch [o] ++ said sender ch ops)%list.
Proof. unfold said. apply (omap_app _ [o] ops). Qed.

Lemma run_written ops r sender ch st :
  exists fs,
    sent_to r (run cfg ops st) = (sent_to r st ++ fs)%list
    /\ heard sender ch fs `sublist_of` said sender ch ops.
Proof.
  revert st. induction ops as [|[now op] ops IH]; intros st.
  - exists []. split; [now rewrite app_nil_r | constructor].
  - destruct (step_written now op r st) as (fs1 & E1 & W1).
    destruct (IH (step cfg st (now, op))) as (fs2 & E2 & S2).
    exists (fs1 ++ fs2)%list. split.
    + unfold run in *. cbn [foldl]. rewrite E2, E1. now rewrite app_assoc.
    + unfold heard. rewrite omap_app.
      rewrite said_cons.
      apply sublist_app; [|exact S2].
      now apply heard_written.
Qed.

Lemma publish_all_delivers sender ch evs r st :
  sender ∈ membersOf ch st ->
  r ∈ recipients cfg sender ch st ->
  sent_to r (publish_all cfg sender ch evs st)
  = (sent_to r st
     ++ map (fun ev => Delivered {| channelId := ch; senderId := sender;
                                    payload := snd ev; timestamp := fst ev |})
          evs)%list.
Proof.
  revert st. induction evs as [|[now body] evs IH]; intros st Hs Hr.
  - simpl. now rewrite app_nil_r.
  - destruct (publish_member cfg now sender ch body st Hs) as (_ & Hm & Hw).
    change (publish_all cfg sender ch ((now, body) :: evs) st)
      with (publish_all cfg sender ch evs (snd (publish cfg now sender ch body st))).
    rewrite IH.
    + rewrite Hw, decide_True by exact Hr. simpl. now rewrite <- app_assoc.
    + now rewrite Hm.
    + unfold recipients in *. now rewrite Hm.
Qed.

(** *** The window of the rate guard *)


End DeliveryFacts.

(** ** The properties of the core *)

(** C2.  In every state the core can reach from its initial state by
    connects, disconnects and inbound events, and in the state after any
    further join or leave, a connection has a channel in its joined set if
    and only if the member set of that channel contains the connection. *)
Theorem membership_is_bidirectional
    (cfg : Core.Config) (ops : list (Z * Core.Op))
    (id : Core.ConnId) (ch : Core.ChannelId) :
  (Core.has_joined id ch (Core.run cfg ops Core.init)
   <-> id ∈ Core.membersOf ch (Core.run cfg ops Core.init))
  /\ (forall id' ch',
         Core.has_joined id ch (snd (Core.join id' ch' (Core.run cfg ops Core.init)))
         <-> id ∈ Core.membersOf ch
                   (snd (Core.join id' ch' (Core.run cfg ops Core.init))))
  /\ (forall id' ch',
         Core.has_joined id ch (snd (Core.leave id' ch' (Core.run cfg ops Core.init)))
         <-> id ∈ Core.membersOf ch
                   (snd (Core.leave id' ch' (Core.run cfg ops Core.init)))).
Proof.
  pose proof (well_formed_run cfg ops Core.init well_formed_init) as Hwf.
  split; [|split].
  - apply Hwf.
  - intros id' ch'. apply (well_formed_join id' ch' _ Hwf).
  - intros id' ch'. apply (well_formed_leave id' ch' _ Hwf).
Qed.

(** C5.  In every reachable state, [unregister] removes the connection
    from the table and from the members of every channel, leaves the other
    members of every channel as they were, deletes the record of a channel
    whose only member it was (its members then read as empty), and does
    nothing when applied again or to a connection that is not registered. *)
Theorem unregister_evicts_everywhere
    (cfg : Core.Config) (ops : list (Z * Core.Op)) (id : Core.ConnId) :
  let st := Core.run cfg ops Core.init in
  let st' := Core.unregister id st in
  Core.connections st' !! id = None
  /\ (forall ch, id ∉ Core.membersOf ch st')
  /\ (forall ch other,
         other <> id ->
         other ∈ Core.membersOf ch st' <-> other ∈ Core.membersOf ch st)
  /\ (forall ch,
         Core.membersOf ch st = {[id]} ->
         Core.channels st' !! ch = None /\ Core.membersOf ch st' = ∅)
  /\ Core.unregister id st' = st'
  /\ (Core.connections st !! id = None -> Core.unregister id st = st).
Proof.
  intros st st'.
  pose proof (well_formed_run cfg ops Core.init well_formed_init) as Hwf.
  fold st in Hwf.
  pose proof (well_formed_unregister id st Hwf) as Hwf'. fold st' in Hwf'.
  assert (Hgone : Core.connections st' !! id = None).
  { unfold st', Core.unregister.
    destruct (Core.connections st !! id) as [c|] eqn:E; simpl; [|exact E].
    apply lookup_delete_eq. }
  assert (Hout : forall ch, id ∉ Core.membersOf ch st').
  { intros ch. now apply unregistered_not_member. }
  split; [exact Hgone|]. split; [exact Hout|]. split; [|split; [|split]].
  - intros ch other Hne. unfold st'. rewrite members_unregister.
    destruct (decide (ch ∈ joined_of id st)); set_solver.
  - intros ch Hsole.
    assert (Hempty : Core.membersOf ch st' = ∅).
    { unfold st'. rewrite members_unregister.
      destruct Hwf as (Hcons & _ & _). use_views Hcons.
      rewrite decide_True by (apply Hcons; set_solver). set_solver. }
    split; [|exact Hempty].
    destruct (Core.channels st' !! ch) as [m|] eqn:E; [|reflexivity].
    exfalso. destruct Hwf' as (_ & Hne & _). apply (Hne ch m E).
    unfold Core.membersOf in Hempty. now rewrite E in Hempty.
  - unfold Core.unregister at 1. now rewrite Hgone.
  - intros Hnone. unfold Core.unregister. now rewrite Hnone.
Qed.

Lemma unregister_evicts_everywhere_witness :
  Core.membersOf "Y" three_in_room = {[0]}
  /\ Core.channels (Core.unregister 0 three_in_room) !! "Y" = None
  /\ Core.membersOf "Y" (Core.unregister 0 three_in_room) = ∅.
Proof.
  assert (H : Core.membersOf "Y" three_in_room = {[0]}) by (vm_compute; reflexivity).
  split; [exact H|].
  exact (proj1 (proj2 (proj2 (proj2
           (unregister_evicts_everywhere sample_cfg sample_ops 0)))) "Y" H).
Defined.

(** C3.  [publish] by a connection that is not a member of the channel
    fails with [NotMemberError] and changes nothing; by a member, with
    self-exclusion on, it reports as recipients exactly the members of the
    channel without the sender, writes the event once to the transport of
    each of them and to nobody else. *)
Theorem publish_reaches_other_members
    (cfg : Core.Config) (now : Z) (sender : Core.ConnId) (ch : Core.ChannelId)
    (body : string) (st : Core.State) :
  (sender ∉ Core.membersOf ch st ->
   Core.publish cfg now sender ch body st = (Core.Err Core.NotMemberError, st))
  /\ (sender ∈ Core.membersOf ch st ->
      Core.excludeSender cfg = true ->
      fst (Core.publish cfg now sender ch body st)
      = Core.Ok (Core.membersOf ch st ∖ {[sender]})
      /\ forall r,
           Core.sent_to r (snd (Core.publish cfg now sender ch body st))
           = if decide (r ∈ Core.membersOf ch st ∖ {[sender]})
             then (Core.sent_to r st
                   ++ [Core.Delivered
                         {| Core.channelId := ch; Core.senderId := sender;
                            Core.payload := body; Core.timestamp := now |}])%list
             else Core.sent_to r st).
Proof.
  split.
  - apply publish_not_member.
  - intros Hin Hex.
    destruct (publish_member cfg now sender ch body st Hin) as (Hf & _ & Hs).
    unfold Core.recipients in Hf, Hs. rewrite Hex in Hf, Hs. now split.
Qed.

Lemma publish_reaches_other_members_witness :
  0 ∈ Core.membersOf "X" three_in_room
  /\ Core.excludeSender sample_cfg = true
  /\ fst (Core.publish sample_cfg 9 0 "X" "oi" three_in_room)
     = Core.Ok (Core.membersOf "X" three_in_room ∖ {[0]})
  /\ Core.membersOf "X" three_in_room ∖ {[0]} = {[1; 2]}.
Proof.
  assert (H : 0 ∈ Core.membersOf "X" three_in_room).
  { apply (bool_decide_unpack _). vm_compute. exact I. }
  split; [exact H|]. split; [reflexivity|]. split.
  - exact (proj1 (proj2 (publish_reaches_other_members sample_cfg 9 0 "X" "oi"
                           three_in_room) H eq_refl)).
  - vm_compute. reflexivity.
Defined.



(** C6.  Whatever the core is made to do, the payloads a recipient is
    sent from one sender on one channel come in the order of that sender's
    publish calls on that channel (they form a subsequence of the calls);
    and when the sender is a member and the recipient is among the
    recipients, a series of publishes is written to the recipient's
    transport in full and in the order of the calls. *)
Theorem delivery_keeps_publish_order
    (cfg : Core.Config) (ops : list (Z * Core.Op)) (st : Core.State)
    (sender : Core.ConnId) (ch : Core.ChannelId) (r : Core.ConnId) :
  (exists fs,
      Core.sent_to r (Core.run cfg ops st) = (Core.sent_to r st ++ fs)%list
      /\ Core.heard sender ch fs `sublist_of` Core.said sender ch ops)
  /\ (forall evs,
         sender ∈ Core.membersOf ch st ->
         r ∈ Core.recipients cfg sender ch st ->
         Core.sent_to r (publish_all cfg sender ch evs st)
         = (Core.sent_to r st
            ++ map (fun ev =>
                      Core.Delivered
                        {| Core.channelId := ch; Core.senderId := sender;
                           Core.payload := snd ev; Core.timestamp := fst ev |})
                 evs)%list).
Proof.
  split.
  - apply run_written.
  - intros evs. apply publish_all_delivers.
Qed.

Lemma delivery_keeps_publish_order_witness :
  0 ∈ Core.membersOf "X" three_in_room
  /\ 1 ∈ Core.recipients sample_cfg 0 "X" three_in_room
  /\ Core.sent_to 1
       (publish_all sample_cfg 0 "X" [(10%Z, "e1"); (11%Z, "e2"); (12%Z, "e3")]
          three_in_room)
     = (Core.sent_to 1 three_in_room
        ++ map (fun ev =>
                  Core.Delivered
                    {| Core.channelId := "X"; Core.senderId := 0;
                       Core.payload := snd ev; Core.timestamp := fst ev |})
             [(10%Z, "e1"); (11%Z, "e2"); (12%Z, "e3")])%list.
Proof.
  assert (H0 : 0 ∈ Core.membersOf "X" three_in_room).
  { apply (bool_decide_unpack _). vm_compute. exact I. }
  assert (H1 : 1 ∈ Core.recipients sample_cfg 0 "X" three_in_room).
  { apply (bool_decide_unpack _). vm_compute. exact I. }
  split; [exact H0|]. split; [exact H1|].
  exact (proj2 (delivery_keeps_publish_order sample_cfg [] three_in_room 0 "X" 1)
           [(10%Z, "e1"); (11%Z, "e2"); (12%Z, "e3")] H0 H1).
Defined.

(** The ordering example of the specification: [0] and [1] are in channel
    [X]; [0] publishes [e1], [e2], [e3]; [1] hears them in that order, and
    [0] hears none of them. *)
Example ordering_run :
  let st :=
    Core.run sample_cfg
      [ (0%Z, Core.Connect ana); (0%Z, Core.Connect bia);
        (1%Z, Core.Receive 0 (Core.Join "X"));
        (2%Z, Core.Receive 1 (Core.Join "X"));
        (10%Z, Core.Receive 0 (Core.Publish "X" "e1"));
        (11%Z, Core.Receive 0 (Core.Publish "X" "e2"));
        (12%Z, Core.Receive 0 (Core.Publish "X" "e3")) ]
      Core.init in
  Core.heard 0 "X" (Core.sent_to 1 st) = ["e1"; "e2"; "e3"]
  /\ Core.sent_to 0 st = [].
Proof. vm_compute. split; reflexivity. Qed.

(** The rate example of the specification, run on the core: of four
    publishes inside one second the fourth is answered with a rejection on
    the sender's transport and is not delivered; one a second later is. *)
Example rate_run :
  let st :=
    Core.run sample_cfg
      [ (10%Z, Core.Receive 0 (Core.Publish "X" "a"));
        (20%Z, Core.Receive 0 (Core.Publish "X" "b"));
        (30%Z, Core.Receive 0 (Core.Publish "X" "c"));
        (40%Z, Core.Receive 0 (Core.Publish "X" "d"));
        (1010%Z, Core.Receive 0 (Core.Publish "X" "e")) ]
      three_in_room in
  Core.heard 0 "X" (Core.sent_to 1 st) = ["a"; "b"; "c"; "e"]
  /\ Core.sent_to 0 st = [Core.Rejection Core.RateLimitedError].
Proof. vm_compute. split; reflexivity. Qed.

(** * Further properties of the code *)

(** ** The handshake middleware: which token counts, which error is sent *)

(** X1.  A truthy [auth.token] is the one that is verified: when it does not
    verify, the handshake is refused with 'Token inválido', whatever the
    query parameter holds. *)
Theorem handshake_auth_token_first
    (jwt_verify : Js.jsval -> string -> option WsAuth.Decoded)
    (env_JWT_SECRET : option string) (socket : WsAuth.Socket) :
  Js.truthy (WsAuth.auth_token (WsAuth.handshake socket)) = true ->
  jwt_verify (WsAuth.auth_token (WsAuth.handshake socket))
    (WsAuth.secret env_JWT_SECRET) = None ->
  WsAuth.ioUse jwt_verify env_JWT_SECRET socket
  = (socket, WsAuth.NextError "Token inválido").
Proof.
  intros Ht Hv.
  assert (E : WsAuth.token_of (WsAuth.handshake socket)
              = WsAuth.auth_token (WsAuth.handshake socket)).
  { unfold WsAuth.token_of, Js.or. now rewrite Ht. }
  apply ioUse_verify_throws; now rewrite E.
Qed.

Lemma handshake_auth_token_first_witness :
  sample_verify (Js.JStr "good-token") (WsAuth.secret None) <> None
  /\ WsAuth.ioUse sample_verify None
       (sample_socket (Js.JStr "stale") (Js.JStr "good-token") Js.JUndefined)
     = (sample_socket (Js.JStr "stale") (Js.JStr "good-token") Js.JUndefined,
        WsAuth.NextError "Token inválido").
Proof.
  split; [discriminate|].
  apply (handshake_auth_token_first sample_verify None
           (sample_socket (Js.JStr "stale") (Js.JStr "good-token") Js.JUndefined));
    reflexivity.
Defined.

(** X2.  The three outcomes of the middleware, each with its exact condition:
    [next()] when the token is truthy and verifies, 'Autenticação
    necessária' when no truthy token is supplied, 'Token inválido' when a
    truthy token does not verify. *)
Theorem handshake_outcomes
    (jwt_verify : Js.jsval -> string -> option WsAuth.Decoded)
    (env_JWT_SECRET : option string) (socket : WsAuth.Socket) :
  let token := WsAuth.token_of (WsAuth.handshake socket) in
  let result := snd (WsAuth.ioUse jwt_verify env_JWT_SECRET socket) in
  (result = WsAuth.NextOk
   <-> Js.truthy token = true
       /\ exists d, jwt_verify token (WsAuth.secret env_JWT_SECRET) = Some d)
  /\ (result = WsAuth.NextError "Autenticação necessária"
      <-> Js.truthy token = false)
  /\ (result = WsAuth.NextError "Token inválido"
      <-> Js.truthy token = true
          /\ jwt_verify token (WsAuth.secret env_JWT_SECRET) = None).
Proof.
  intros token result. unfold result, WsAuth.ioUse. fold token.
  destruct (Js.truthy token) eqn:Ht; simpl.
  - destruct (jwt_verify token (WsAuth.secret env_JWT_SECRET)) as [d|] eqn:Hv; simpl.
    + split; [|split].
      * split; [intros _; split; [reflexivity | now exists d] | reflexivity].
      * split; discriminate.
      * split; [discriminate | intros [_ [=]]].
    + split; [|split].
      * split; [discriminate | intros [_ [d [=]]]].
      * split; discriminate.
      * split; [now intros _ | reflexivity].
  - split; [|split].
    + split; [discriminate | intros [[=] _]].
    + split; reflexivity.
    + split; [discriminate | intros [[=] _]].
Qed.

(** ** The rate limiters: exact verdicts, counters, addresses *)

Section StackFacts.
Import Http.

Lemma prefix_get s q n :
  String.prefix s q = true -> n < String.length s ->
  String.get n q = String.get n s.
Proof.
  intros H Hn. apply prefix_correct in H.
  transitivity (String.get n (substring 0 (String.length s) q)); [|now rewrite H].
  rewrite substring_correct1 by exact Hn. now rewrite Nat.add_0_r.
Qed.

(** No path is under both routes of the login limiter. *)
Lemma login_register_apart p :
  mounted "/api/auth/login" p = true -> mounted "/api/auth/register" p = false.
Proof.
  unfold mounted.
  change (lower "/api/auth/login") with "/api/auth/login".
  change (lower "/api/auth/register") with "/api/auth/register".
  change ("/api/auth/login" ++ "/") with "/api/auth/login/".
  change ("/api/auth/register" ++ "/") with "/api/auth/register/".
  generalize (lower p) as q. intros q Hl.
  assert (G : String.get 10 q = String.get 10 "/api/auth/login/").
  { apply orb_true_iff in Hl. destruct Hl as [Hl | Hl].
    - apply String.eqb_eq in Hl. now subst q.
    - apply (prefix_get _ _ 10 Hl). simpl. lia. }
  destruct ((q =? "/api/auth/register") || String.prefix "/api/auth/register/" q)
    eqn:Hr; [|reflexivity].
  apply orb_true_iff in Hr. destruct Hr as [Hr | Hr].
  - apply String.eqb_eq in Hr. subst q. vm_compute in G. discriminate G.
  - rewrite (prefix_get _ _ 10 Hr) in G by (simpl; lia).
    vm_compute in G. discriminate G.
Qed.


(** The stack below the global limiter: the two mounts of the login
    limiter. *)
Lemma auth_stages now req l :
  run_stack [(Some "/api/auth/login", Auth); (Some "/api/auth/register", Auth)]
    now req l
  = if auth_path req
    then (fst (rateLimit authLimiter now req (auth_store l)),
          set_store Auth (snd (rateLimit authLimiter now req (auth_store l))) l)
    else (Pass, l).
Proof.
  unfold auth_path.
  destruct (mounted "/api/auth/login" (path req)) eqn:E1.
  - rewrite run_stack_cons by exact E1. simpl store_of. simpl options_of.
    rewrite orb_true_l.
    destruct (fst (rateLimit authLimiter now req (auth_store l))); [|reflexivity].
    rewrite run_stack_skip; [reflexivity|].
    simpl. now apply login_register_apart.
  - rewrite run_stack_skip by exact E1. rewrite orb_false_l.
    destruct (mounted "/api/auth/register" (path req)) eqn:E2.
    + rewrite run_stack_cons by exact E2. simpl store_of. simpl options_of.
      now destruct (fst (rateLimit authLimiter now req (auth_store l))).
    + now rewrite run_stack_skip by exact E2.
Qed.

Lemma stack_unfolded now req l :
  run_stack limiter_stack now req l
  = match fst (rateLimit limiter now req (global_store l)) with
    | Pass =>
        let l1 := set_store Global
                    (snd (rateLimit limiter now req (global_store l))) l in
        if auth_path req
        then (fst (rateLimit authLimiter now req (auth_store l)),
              set_store Auth (snd (rateLimit authLimiter now req (auth_store l))) l1)
        else (Pass, l1)
    | refusal =>
        (refusal,
         set_store Global (snd (rateLimit limiter now req (global_store l))) l)
    end.
Proof.
  unfold limiter_stack at 1. rewrite run_stack_cons by reflexivity.
  simpl store_of. simpl options_of.
  destruct (fst (rateLimit limiter now req (global_store l))); [|reflexivity].
  now rewrite auth_stages.
Qed.

End StackFacts.

Section VerdictFacts.
Import Http.

Lemma verdict_exact now req l :
  method req <> "OPTIONS" ->
  fst (app now req l)
  = if Nat.leb 100 (hits_in_window now (ip req) (global_store l))
    then Respond 429 (Some (body limiter))
    else if auth_path req
            && Nat.leb 5 (hits_in_window now (ip req) (auth_store l))
    then Respond 429 (Some (body authLimiter))
    else Pass.
Proof.
  intros Hm. rewrite app_not_options by exact Hm. rewrite stack_unfolded.
  rewrite rateLimit_verdict.
  change (Http.max limiter) with 100.
  destruct (Nat.ltb_spec 100 (S (hits_in_window now (ip req) (global_store l))));
    destruct (Nat.leb_spec 100 (hits_in_window now (ip req) (global_store l)));
    try lia; [reflexivity|].
  cbv zeta. destruct (auth_path req); [|reflexivity].
  simpl fst. rewrite rateLimit_verdict.
  change (Http.max authLimiter) with 5.
  destruct (Nat.ltb_spec 5 (S (hits_in_window now (ip req) (auth_store l))));
    destruct (Nat.leb_spec 5 (hits_in_window now (ip req) (auth_store l)));
    try lia; reflexivity.
Qed.



End VerdictFacts.

(** X3.  The verdict on a request that reaches the limiters, in full: refused
    with the global message when its address has 100 hits in the running
    window of the global limiter; otherwise refused with the login message
    when it goes to one of the two login routes and the address has 5 hits
    in the running window of the login limiter; otherwise passed on. *)
Theorem http_verdict_exact (now : Z) (req : Http.Request) (l : Http.Limits) :
  Http.method req <> "OPTIONS" ->
  fst (Http.app now req l)
  = if Nat.leb 100 (Http.hits_in_window now (Http.ip req) (Http.global_store l))
    then Http.Respond 429 (Some (Http.body Http.limiter))
    else if auth_path req
            && Nat.leb 5 (Http.hits_in_window now (Http.ip req) (Http.auth_store l))
    then Http.Respond 429 (Some (Http.body Http.authLimiter))
    else Http.Pass.
Proof. apply verdict_exact. Qed.

Lemma http_verdict_exact_witness :
  Http.method (post_login "10.0.0.9") <> "OPTIONS"
  /\ fst (Http.app 5 (post_login "10.0.0.9") after_hundred) = Http.Pass.
Proof.
  assert (Hm : Http.method (post_login "10.0.0.9") <> "OPTIONS") by discriminate.
  split; [exact Hm|].
  rewrite (http_verdict_exact 5 (post_login "10.0.0.9") after_hundred Hm).
  vm_compute. reflexivity.
Defined.

(** X4.  The login limiter is one instance behind both routes, and it comes
    after the global limiter: a request that the global limiter refuses, or
    that goes elsewhere, leaves its store untouched; a request to either
    route that the global limiter lets through adds one hit for its
    address, whichever of the two routes it goes to. *)
Theorem http_login_counter (now : Z) (req : Http.Request) (l : Http.Limits) :
  Http.method req <> "OPTIONS" ->
  (100 <= Http.hits_in_window now (Http.ip req) (Http.global_store l)
   \/ auth_path req = false ->
   Http.auth_store (snd (Http.app now req l)) = Http.auth_store l)
  /\ (Http.hits_in_window now (Http.ip req) (Http.global_store l) < 100 ->
      auth_path req = true ->
      Http.hits_in_window now (Http.ip req) (Http.auth_store (snd (Http.app now req l)))
      = S (Http.hits_in_window now (Http.ip req) (Http.auth_store l))).
Proof.
  intros Hm. rewrite app_not_options by exact Hm. rewrite stack_unfolded.
  split.
  - intros Hcase.
    destruct (fst (Http.rateLimit Http.limiter now req (Http.global_store l)))
      eqn:E; [|reflexivity].
    cbv zeta. destruct Hcase as [Hover | Hpath].
    + rewrite rateLimit_over in E by exact Hover. discriminate E.
    + now rewrite Hpath.
  - intros Hunder Hpath.
    rewrite rateLimit_under by exact Hunder. cbv zeta. rewrite Hpath.
    simpl snd. simpl Http.auth_store.
    rewrite rateLimit_store. now apply increment_counts.
Qed.

Lemma http_login_counter_witness :
  Http.hits_in_window 7 (Http.ip (post_register "10.0.0.9"))
    (Http.global_store (snd (Http.app 5 (post_login "10.0.0.9") Http.no_limits)))
  < 100
  /\ auth_path (post_register "10.0.0.9") = true
  /\ Http.hits_in_window 7 (Http.ip (post_register "10.0.0.9"))
       (Http.auth_store
          (snd (Http.app 7 (post_register "10.0.0.9")
                  (snd (Http.app 5 (post_login "10.0.0.9") Http.no_limits)))))
     = S (Http.hits_in_window 7 (Http.ip (post_register "10.0.0.9"))
            (Http.auth_store
               (snd (Http.app 5 (post_login "10.0.0.9") Http.no_limits)))).
Proof.
  assert (Hunder : Http.hits_in_window 7 (Http.ip (post_register "10.0.0.9"))
                     (Http.global_store
                        (snd (Http.app 5 (post_login "10.0.0.9") Http.no_limits)))
                   < 100).
  { apply Nat.ltb_lt. vm_compute. reflexivity. }
  split; [exact Hunder|]. split; [reflexivity|].
  exact (proj2 (http_login_counter 7 (post_register "10.0.0.9")
                  (snd (Http.app 5 (post_login "10.0.0.9") Http.no_limits))
                  ltac:(discriminate)) Hunder eq_refl).
Defined.

(** ** The limiters behind the server *)

Section ServerFacts.
Import Http.

Lemma handle_engine now req l :
  String.prefix Server.engine_prefix (path req) = true ->
  Server.handle now req l = (Server.ByEngine, l).
Proof. intros H. unfold Server.handle. now rewrite H. Qed.






End ServerFacts.

(** A request for the socket.io engine is answered by the engine: the
    limiters neither count it nor refuse it, however many requests its
    address has made. *)
Lemma server_engine_not_limited (now : Z) (req : Http.Request) (l : Http.Limits) :
  String.prefix "/socket.io/" (Http.path req) = true ->
  Server.handle now req l = (Server.ByEngine, l).
Proof. apply handle_engine. Qed.





(** ** The service worker: activation, installation, offline answers *)

Section CacheFacts.
Import Worker Lifecycle.

Lemma delete_many (names : list string) : forall cs : CacheStorage,
  foldl (fun acc name => caches_delete name acc) cs names
  = List.filter (fun p => negb (existsb (String.eqb (fst p)) names)) cs.
Proof.
  induction names as [|n names IH]; intros cs; simpl.
  - induction cs as [|p cs IHcs]; [reflexivity|]. simpl. now rewrite <- IHcs.
  - rewrite IH. unfold caches_delete.
    induction cs as [|p cs IHcs]; [reflexivity|]. simpl.
    destruct (String.eqb (fst p) n); simpl; [exact IHcs|].
    destruct (existsb (String.eqb (fst p)) names); simpl; [exact IHcs|].
    now rewrite IHcs.
Qed.

Lemma onActivate_filter (cs : CacheStorage) :
  onActivate cs = List.filter (fun p => String.eqb (fst p) CACHE_NAME) cs.
Proof.
  unfold onActivate. rewrite delete_many. apply filter_ext_in.
  intros p Hp.
  destruct (String.eqb_spec (fst p) CACHE_NAME) as [E|E].
  - apply negb_true_iff. destruct (existsb _ _) eqn:X; [|reflexivity].
    apply existsb_exists in X. destruct X as (n & Hn & Hpn).
    apply String.eqb_eq in Hpn. subst n.
    apply filter_In in Hn. destruct Hn as [_ Hn].
    rewrite E in Hn. discriminate Hn.
  - apply negb_false_iff. apply existsb_exists. exists (fst p). split.
    + apply filter_In. split.
      * unfold caches_keys. now apply in_map.
      * apply negb_true_iff. now apply String.eqb_neq.
    + apply String.eqb_refl.
Qed.

Lemma only_current_filter (cs : CacheStorage) :
  only_current (List.filter (fun p => String.eqb (fst p) CACHE_NAME) cs).
Proof.
  unfold only_current. apply Forall_forall. intros p Hp.
  apply list_elem_of_In, filter_In in Hp. destruct Hp as [_ Hp].
  now apply String.eqb_eq.
Qed.

Lemma filter_only_current (cs : CacheStorage) :
  only_current cs ->
  List.filter (fun p => String.eqb (fst p) CACHE_NAME) cs = cs.
Proof.
  induction 1 as [|p cs Hp _ IH]; [reflexivity|]. simpl.
  rewrite Hp, String.eqb_refl. now rewrite IH.
Qed.

(** A storage of current caches, once the current cache is open, starts
    with it. *)
Lemma open_current (cs : CacheStorage) :
  only_current cs ->
  exists c rest,
    caches_open CACHE_NAME cs = (CACHE_NAME, c) :: rest
    /\ (cs = [] \/ cs = (CACHE_NAME, c) :: rest).
Proof.
  intros Hcur. destruct cs as [|[n c] rest].
  - exists ∅, []. split; [reflexivity | now left].
  - apply Forall_cons in Hcur. destruct Hcur as [Hn _]. simpl in Hn. subst n.
    exists c, rest. split; [|now right].
    reflexivity.
Qed.

Lemma put_current key r c (rest : CacheStorage) :
  caches_put CACHE_NAME key r ((CACHE_NAME, c) :: rest)
  = (CACHE_NAME, <[key := r]> c) :: rest.
Proof. reflexivity. Qed.

End CacheFacts.

(** X7.  Activation leaves exactly the caches named [gochat-v1], with what they
    hold and in their order; a second activation changes nothing. *)
Theorem activate_keeps_current_only (cs : Worker.CacheStorage) :
  Lifecycle.onActivate cs
  = List.filter (fun p => String.eqb (fst p) Worker.CACHE_NAME) cs
  /\ Lifecycle.only_current (Lifecycle.onActivate cs)
  /\ Lifecycle.onActivate (Lifecycle.onActivate cs) = Lifecycle.onActivate cs.
Proof.
  split; [apply onActivate_filter|]. split.
  - rewrite onActivate_filter. apply only_current_filter.
  - rewrite (onActivate_filter (Lifecycle.onActivate cs)).
    apply filter_only_current. rewrite onActivate_filter.
    apply only_current_filter.
Qed.

(** X8.  After activation a response that only an old cache held is no longer
    found: [caches.match] answers from the caches named [gochat-v1]
    alone. *)
Theorem activate_forgets_old_caches (key : string) (cs : Worker.CacheStorage) :
  (forall c, In (Worker.CACHE_NAME, c) cs -> c !! key = None) ->
  Worker.caches_match key (Lifecycle.onActivate cs) = None.
Proof.
  intros Hold. rewrite onActivate_filter.
  induction cs as [|[n c] cs IH]; [reflexivity|]. simpl.
  destruct (String.eqb_spec n Worker.CACHE_NAME) as [->|Hn].
  - simpl. rewrite (Hold c) by now left.
    apply IH. intros c' Hc'. apply Hold. now right.
  - apply IH. intros c' Hc'. apply Hold. now right.
Qed.

Lemma activate_forgets_old_caches_witness :
  Worker.caches_match "https://gochat.example/index.html"
    [("gochat-v0", {[ "https://gochat.example/index.html" := stale_page ]})]
  = Some stale_page
  /\ Worker.caches_match "https://gochat.example/index.html"
       (Lifecycle.onActivate
          [("gochat-v0", {[ "https://gochat.example/index.html" := stale_page ]})])
     = None.
Proof.
  split; [reflexivity|].
  apply (activate_forgets_old_caches "https://gochat.example/index.html").
  intros c [H|[]]. discriminate H.
Defined.



Section InstallFacts.
Import Worker Lifecycle.

Variable resolve : string -> string.
Variable fetch : Request -> option Response.

(** What [cache.addAll] gets for a URL. *)
Let got (key : string) : option Response :=
  fetch {| method := "GET"; url := key; mode := "cors" |}.

Lemma fetch_assets_Some assets es :
  fetch_assets resolve fetch assets = Some es ->
  map fst es = map resolve assets
  /\ Forall (fun e => got (fst e) = Some (snd e) /\ addable (snd e) = true) es.
Proof.
  revert es. induction assets as [|a assets IH]; intros es; simpl.
  - intros [= <-]. split; [reflexivity | constructor].
  - unfold asset_request.
    destruct (fetch {| method := "GET"; url := resolve a; mode := "cors" |})
      as [r|] eqn:E; [|discriminate].
    destruct (addable r) eqn:Hr; [|discriminate].
    destruct (fetch_assets resolve fetch assets) as [es'|]; [|discriminate].
    intros [= <-]. destruct (IH es' eq_refl) as [Hk Hall].
    split; [simpl; now rewrite Hk|].
    constructor; [split; [exact E | exact Hr] | exact Hall].
Qed.

Lemma fetch_assets_succeeds assets :
  is_Some (fetch_assets resolve fetch assets)
  <-> Forall (fun a => exists r, fetch (asset_request resolve a) = Some r
                                 /\ addable r = true) assets.
Proof.
  induction assets as [|a assets IH]; simpl.
  - split; [constructor | now exists []].
  - destruct (fetch (asset_request resolve a)) as [r|] eqn:E.
    + destruct (addable r) eqn:Hr.
      * split.
        -- intros Hs. constructor; [now exists r|]. apply IH.
           destruct (fetch_assets resolve fetch assets); [eauto | now destruct Hs].
        -- intros Hall. apply Forall_cons in Hall. destruct Hall as [_ Hall].
           apply IH in Hall. destruct Hall as [es ->]. now eexists.
      * split; [intros [? [=]]|].
        intros Hall. apply Forall_cons in Hall.
        destruct Hall as [(r' & Hf & Hr') _]. congruence.
    + split; [intros [? [=]]|].
      intros Hall. apply Forall_cons in Hall.
      destruct Hall as [(r' & Hf & _) _]. congruence.
Qed.

Lemma fold_put_current (es : list (string * Response)) : forall c rest,
  foldl (fun acc e => caches_put CACHE_NAME (fst e) (snd e) acc)
    ((CACHE_NAME, c) :: rest) es
  = (CACHE_NAME, foldl (fun m e => <[fst e := snd e]> m) c es) :: rest.
Proof.
  induction es as [|e es IH]; intros c rest; [reflexivity|].
  cbn [foldl]. rewrite put_current. apply IH.
Qed.

Lemma lookup_fold_insert (es : list (string * Response)) : forall (c : Cache) key,
  Forall (fun e => got (fst e) = Some (snd e)) es ->
  In key (map fst es) \/ c !! key = got key ->
  foldl (fun m e => <[fst e := snd e]> m) c es !! key = got key.
Proof.
  induction es as [|[k r] es IH]; intros c key Hall Hkey.
  - destruct Hkey as [[]|Hc]. exact Hc.
  - apply Forall_cons in Hall. destruct Hall as [Hk Hall]. simpl in Hk.
    cbn [foldl fst snd]. apply IH; [exact Hall|].
    destruct (in_dec String.string_dec key (map fst es)) as [Hin|Hnin];
      [now left|right].
    destruct (decide (key = k)) as [->|Hne].
    + now rewrite lookup_insert_eq.
    + rewrite lookup_insert_ne by (intros E; now apply Hne).
      destruct Hkey as [[E|Hin]|Hc]; [now elim Hne | now elim Hnin | exact Hc].
Qed.

(** After a successful install in a storage of current caches, every
    static asset is matched with the response fetched for it. *)
Lemma installed_assets cs asset :
  only_current cs ->
  fst (onInstall resolve fetch cs) = true ->
  In asset STATIC_ASSETS ->
  caches_match (resolve asset) (snd (onInstall resolve fetch cs))
  = fetch (asset_request resolve asset)
  /\ is_Some (fetch (asset_request resolve asset)).
Proof.
  intros Hcur Hok Hin. unfold onInstall, cache_addAll in *.
  destruct (fetch_assets resolve fetch STATIC_ASSETS) as [es|] eqn:E;
    [|discriminate Hok].
  pose proof (proj1 (fetch_assets_succeeds STATIC_ASSETS)
                ltac:(rewrite E; now eexists)) as Hall.
  rewrite Forall_forall in Hall.
  destruct (Hall asset (proj2 (list_elem_of_In _ _) Hin)) as (r & Hr & _).
  split; [|rewrite Hr; now eexists].
  destruct (fetch_assets_Some _ _ E) as [Hkeys Hes].
  destruct (open_current cs Hcur) as (c & rest & -> & _).
  cbn [option_map snd]. rewrite fold_put_current. simpl caches_match.
  assert (Hl : foldl (fun m e => <[fst e := snd e]> m) c es !! resolve asset
               = got (resolve asset)).
  { apply lookup_fold_insert.
    - eapply Forall_impl; [exact Hes|]. now intros e [He _].
    - left. rewrite Hkeys. now apply in_map. }
  rewrite Hl. unfold got. fold (asset_request resolve asset). now rewrite Hr.
Qed.

End InstallFacts.



(** X12.  The app shell is there offline: after a successful install in a
    storage of current caches, a navigation whose fetch fails and whose URL
    is not cached is answered with the response that was fetched for
    [/index.html] at install. *)
Theorem install_then_offline_navigation
    (pathname resolve : string -> string)
    (fetch offline : Worker.Request -> option Worker.Response)
    (request : Worker.Request) (cs : Worker.CacheStorage) :
  Lifecycle.only_current cs ->
  fst (Lifecycle.onInstall resolve fetch cs) = true ->
  Worker.skipped pathname request = false ->
  Worker.mode request = "navigate" ->
  offline request = None ->
  Worker.caches_match (Worker.url request)
    (snd (Lifecycle.onInstall resolve fetch cs)) = None ->
  exists shell,
    fetch (Lifecycle.asset_request resolve "/index.html") = Some shell
    /\ fst (Worker.onFetch pathname resolve offline request
              (snd (Lifecycle.onInstall resolve fetch cs)))
       = Worker.RespondWith (Some shell).
Proof.
  intros Hcur Hok Hin Hnav Hoff Hmiss.
  destruct (installed_assets resolve fetch cs "/index.html" Hcur Hok)
    as [Hm [shell Hshell]].
  { simpl. auto. }
  exists shell. split; [exact Hshell|].
  rewrite (onFetch_intercepted _ _ _ _ _ Hin), Hoff, Hmiss, Hnav. simpl.
  now rewrite Hm, Hshell.
Qed.

Lemma install_then_offline_navigation_witness :
  exists shell,
    Some fresh_page = Some shell
    /\ fst (Worker.onFetch (fun _ => "/chat/7")
              (fun p => "https://gochat.example" ++ p) (fun _ => None)
              {| Worker.method := "GET"; Worker.url := "https://gochat.example/chat/7";
                 Worker.mode := "navigate" |}
              (snd (Lifecycle.onInstall (fun p => "https://gochat.example" ++ p)
                      (fun _ => Some fresh_page) [])))
       = Worker.RespondWith (Some shell).
Proof.
  apply (install_then_offline_navigation (fun _ => "/chat/7")
           (fun p => "https://gochat.example" ++ p)
           (fun _ => Some fresh_page) (fun _ => None)
           {| Worker.method := "GET"; Worker.url := "https://gochat.example/chat/7";
              Worker.mode := "navigate" |} []);
    try reflexivity.
  constructor.
Defined.

(** ** The notification click listener *)

Section ClickFacts.
Import Js Notify.

Variable show : jsval -> string.

(** The target is always a path from the root. *)
Lemma target_rooted data : String.prefix "/" (target show data) = true.
Proof.
  unfold target.
  destruct (truthy (field data chatId)); [reflexivity|].
  destruct (truthy (field data liveId)); [reflexivity|].
  now destruct (truthy (field data userId)).
Qed.

Lemma find_exact_none url (clients : list WindowClient) :
  String.prefix "/" url = true ->
  Forall (fun c => String.prefix "/" (client_url c) = false) clients ->
  List.find (fun c => String.eqb (client_url c) url && has_focus c) clients = None.
Proof.
  intros Hurl. induction 1 as [|c clients Hc _ IH]; [reflexivity|]. simpl.
  destruct (String.eqb_spec (client_url c) url) as [E|_]; [|exact IH].
  rewrite E, Hurl in Hc. discriminate Hc.
Qed.

End ClickFacts.

(** X13.  The listener compares the URL of each window with a path: a window
    whose URL does not itself start with [/] (an absolute URL, as the
    browser reports them) is never focused, also when it shows the very
    page; with such windows only, the listener opens a new window at the
    target whenever the browser lets it, and does nothing otherwise. *)
Theorem click_never_focuses_absolute_url
    (show : Js.jsval -> string) (data : option Notify.NotificationData)
    (clients : list Notify.WindowClient) (canOpen : bool) :
  Forall (fun c => String.prefix "/" (Notify.client_url c) = false) clients ->
  Notify.onNotificationClick show data clients canOpen
  = if canOpen then Notify.OpenWindow (Notify.target show data)
    else Notify.NoAction.
Proof.
  intros Habs. unfold Notify.onNotificationClick.
  now rewrite (find_exact_none _ clients (target_rooted show data) Habs).
Qed.

Lemma click_never_focuses_absolute_url_witness :
  Notify.onNotificationClick sample_show
    (Some (Notify.mkData (Js.JStr "42") Js.JUndefined Js.JUndefined))
    [open_chat] true
  = Notify.OpenWindow "/chat/42".
Proof.
  apply (click_never_focuses_absolute_url sample_show
           (Some (Notify.mkData (Js.JStr "42") Js.JUndefined Js.JUndefined))
           [open_chat] true).
  repeat constructor.
Defined.
